(** * SimpleScript: the tree-walking evaluator, its environments and its
    runtime errors

    A shallow embedding of [bin/symbol_table.py], [bin/errors.py] and
    [bin/interpreter.py].

    Python objects that the program mutates in place (the [symbols]
    dictionary of every [SymbolTable]) live in an explicit store; everything
    that is assigned once at construction ([SymbolTable.parent], the fields of
    a [Context], the fields of a value) is carried by value.  A Python
    exception that nothing in the program catches ([AttributeError] on
    [None], [KeyError], [TypeError]) ends the evaluation: it is the [Raise]
    outcome.  A number is a Python [int] ([Z]) or a Python [float] (IEEE 754
    binary64, with the operations of the Standard Library's [SpecFloat]). *)

From Stdlib Require Import ZArith QArith Qround String Ascii DecimalString.
From Stdlib Require Import SpecFloat List Lia.
From stdpp Require Import base gmap strings list.

Set Warnings "-register-all".

Local Open Scope string_scope.
Local Open Scope Z_scope.

(** ** Source positions, environments, contexts *)

(** Modelled from the spec: [bin/position.py] is not part of the sources.  A
    source position is immutable and holds the file name, the source text,
    the line index (0-based), the column index and the absolute index. *)
Record Position := mkPosition {
  idx : nat;
  ln : nat;
  col : nat;
  fn : string;
  ftxt : string
}.

(** A [SymbolTable] object: its identity is the store cell that holds its
    [symbols] dictionary; [parent] is assigned in [__init__] and never
    again. *)
Inductive SymbolTable :=
| mkSymbolTable (cell : nat) (parent : option SymbolTable).

Definition cell (t : SymbolTable) : nat :=
  match t with mkSymbolTable c _ => c end.

Definition parent (t : SymbolTable) : option SymbolTable :=
  match t with mkSymbolTable _ p => p end.

(** Modelled from the spec: [bin/context.py] is not part of the sources.  An
    execution context holds a display name, an optional parent context, the
    optional entry position in the parent and its environment, and is never
    mutated after creation. *)
Inductive Context :=
| mkContext (display_name : string) (parent_context : option Context)
            (parent_entry_pos : option Position) (symbol_table : SymbolTable).

Definition display_name (c : Context) : string :=
  match c with mkContext n _ _ _ => n end.
Definition parent_context (c : Context) : option Context :=
  match c with mkContext _ p _ _ => p end.
Definition parent_entry_pos (c : Context) : option Position :=
  match c with mkContext _ _ e _ => e end.
Definition symbol_table (c : Context) : SymbolTable :=
  match c with mkContext _ _ _ t => t end.

(** ** Python numbers *)

(** A Python [float]: a binary64 number, in the representation of
    [SpecFloat], and the arithmetic of that format, rounding to nearest with
    ties to even. *)
Definition float : Type := spec_float.

Definition float_add : float -> float -> float := SFadd 53 1024.

(** [float(z)] for an [int]: the nearest [float], ties to even.
    [OverflowError] ([None] here) when [z] is too large for a [float]. *)
Definition float_of_int (z : Z) : option float :=
  match binary_normalize 53 1024 z 0 false with
  | S754_infinity _ => None
  | f => Some f
  end.

(** The payload of a number: an [int] or a [float]. *)
Inductive PyNumber :=
| PyInt (z : Z)
| PyFloat (f : float).

Coercion PyInt : Z >-> PyNumber.

(** Python compares a [float] with an [int] exactly, without converting
    the [int].  A finite [float] is [m * 2 ^ e] with its sign.  [None] when
    the [float] is not a number: every comparison with it is false. *)
Definition float_compare_int (f : float) (z : Z) : option comparison :=
  match f with
  | S754_nan => None
  | S754_infinity s => Some (if s then Lt else Gt)
  | S754_zero _ => Some (0 ?= z)
  | S754_finite s m e =>
      let v := if s then Z.neg m else Z.pos m in
      Some (if 0 <=? e then v * 2 ^ e ?= z else v ?= z * 2 ^ (- e))
  end.

Definition py_compare (a b : PyNumber) : option comparison :=
  match a, b with
  | PyInt x, PyInt y => Some (x ?= y)
  | PyFloat x, PyFloat y => SFcompare x y
  | PyFloat x, PyInt y => float_compare_int x y
  | PyInt x, PyFloat y => CompOpp <$> float_compare_int y x
  end.

(** [a < b], [a > b] and [a >= b] on numbers. *)
Definition py_lt (a b : PyNumber) : bool :=
  match py_compare a b with Some Lt => true | _ => false end.

Definition py_gt (a b : PyNumber) : bool :=
  match py_compare a b with Some Gt => true | _ => false end.

Definition py_ge (a b : PyNumber) : bool :=
  match py_compare a b with Some (Gt | Eq) => true | _ => false end.

(** [a + b] on numbers: exact on two [int]s; when one side is a [float]
    the other is converted and the sum is rounded.  [None] is the
    [OverflowError] of the conversion. *)
Definition py_add (a b : PyNumber) : option PyNumber :=
  match a, b with
  | PyInt x, PyInt y => Some (PyInt (x + y))
  | PyFloat x, PyFloat y => Some (PyFloat (float_add x y))
  | PyInt x, PyFloat y =>
      x' ← float_of_int x; Some (PyFloat (float_add x' y))
  | PyFloat x, PyInt y =>
      y' ← float_of_int y; Some (PyFloat (float_add x y'))
  end.

(** ** Syntax trees consumed by the evaluator *)

(** Modelled from the spec: the token types of [bin/constants.py] are not
    part of the sources.  These are the operator tokens of a [BinOpNode],
    under the names [visit_binopnode] tests them by; AND and OR are keyword
    tokens. *)
Inductive BinOperator :=
| TP_PLUS | TP_MINUS | TP_POWER | TP_MUL | TP_DIV | TP_MODULO | TP_CLEAN_DIV
| TP_NE | TP_EE | TP_LT | TP_LTE | TP_GT | TP_GTE
| KW_AND | KW_OR.

(** Modelled from the spec: the operator token of a [UnaryOpNode].
    [visit_unaryopnode] tests for MINUS and for the keyword NOT and leaves
    the operand alone for any other token. *)
Inductive UnaryOperator := U_MINUS | U_NOT | U_OTHER.

(** [start_pos] and [end_pos] of a node. *)
Definition Span : Type := Position * Position.

(** Modelled from the spec: the node classes are not part of the sources.
    These are the node variants of section 6 with the fields the evaluator
    reads, each with its start and end position; a token is represented by
    its value. *)
Inductive Node :=
| NumberNode (sp : Span) (value : PyNumber)
| StringNode (sp : Span) (value : string)
| ListNode (sp : Span) (element_nodes : list Node)
| BinOpNode (sp : Span) (left_node : Node) (op_token : BinOperator)
            (right_node : Node)
| UnaryOpNode (sp : Span) (op_token : UnaryOperator) (right_node : Node)
| VarAccessNode (sp : Span) (var_name : string)
| VarAssignNode (sp : Span) (var_name : string) (value_node : Node)
| IfNode (sp : Span) (cases : list (Node * Node * bool))
         (else_case : option (Node * bool))
| ForNode (sp : Span) (var_name_token : string) (start_value_node : Node)
          (end_value_node : Node) (step_value_node : option Node)
          (body_node : Node) (should_return_null : bool)
| WhileNode (sp : Span) (condition : Node) (body_node : Node)
            (should_return_null : bool)
| FuncDefNode (sp : Span) (var_name_token : option string)
              (arg_name_tokens : list string) (body_node : Node)
              (should_auto_return : bool)
| CallNode (sp : Span) (node_to_call : Node) (arg_nodes : list Node)
| ReturnNode (sp : Span) (node_to_return : option Node)
| ContinueNode (sp : Span)
| BreakNode (sp : Span).

(** ** Runtime values *)

(** Modelled from the spec: the value classes [Number], [String] and [List]
    are not part of the sources ([Function] is).  A Python reference to a
    runtime value is [None] or an instance of one of these classes.  A
    [Number] holds an [int] or a [float].  Every instance carries its
    position span and its context, both unset at construction.  The
    host-implemented built-in functions are not part of the sources and have
    no constructor here; lists are immutable here. *)
Inductive Value :=
| PyNone
| VNumber (value : PyNumber) (pos : option Span)
          (context : option Context)
| VString (value : string) (pos : option Span) (context : option Context)
| VList (elements : list Value) (pos : option Span) (context : option Context)
| VFunction (name : option string) (body_node : Node)
            (arg_names : list string) (should_auto_return : bool)
            (pos : option Span) (context : option Context).

(** The constructors [Number(v)], [String(v)], [List(v)] and
    [Function(name, body_node, arg_names, should_auto_return)]. *)
Definition Number (v : PyNumber) : Value := VNumber v None None.
Definition String_ (v : string) : Value := VString v None None.
Definition List_ (elements : list Value) : Value := VList elements None None.
Definition Function (name : option string) (body_node : Node)
    (arg_names : list string) (should_auto_return : bool) : Value :=
  VFunction name body_node arg_names should_auto_return None None.

Definition is_none (v : Value) : bool :=
  match v with PyNone => true | _ => false end.

Definition value_pos (v : Value) : option Span :=
  match v with
  | PyNone => None
  | VNumber _ p _ | VString _ p _ | VList _ p _ | VFunction _ _ _ _ p _ => p
  end.

Definition value_context (v : Value) : option Context :=
  match v with
  | PyNone => None
  | VNumber _ _ c | VString _ _ c | VList _ _ c | VFunction _ _ _ _ _ c => c
  end.

(** Modelled from the spec: [v.set_position(start_pos, end_pos)] fills the
    position span of an instance.  On [None] the call is an
    [AttributeError], which the callers below test for first. *)
Definition set_position (v : Value) (sp : Span) : Value :=
  match v with
  | PyNone => PyNone
  | VNumber z _ c => VNumber z (Some sp) c
  | VString s _ c => VString s (Some sp) c
  | VList l _ c => VList l (Some sp) c
  | VFunction n b a r _ c => VFunction n b a r (Some sp) c
  end.

(** Modelled from the spec: [v.set_context(context)] fills the context of
    an instance. *)
Definition set_context (v : Value) (ctx : Context) : Value :=
  match v with
  | PyNone => PyNone
  | VNumber z p _ => VNumber z p (Some ctx)
  | VString s p _ => VString s p (Some ctx)
  | VList l p _ => VList l p (Some ctx)
  | VFunction n b a r p _ => VFunction n b a r p (Some ctx)
  end.

(** [Function.copy] builds a new instance with the same fields, context and
    position; the [copy] of the other classes is taken to do the same.
    Instances are immutable here, so the copy is the value itself. *)
Definition copy (v : Value) : Value := v.

(** Python's [a or b] on references: every instance of the classes above is
    truthy (none defines [__bool__] or [__len__]), [None] is falsy. *)
Definition py_or (a b : Value) : Value :=
  if is_none a then b else a.

(** ** Runtime errors ([bin/errors.py]) *)

Record ActiveRuntimeError := mkError {
  error_name : string;
  error_details : string;
  start_pos : option Position;
  end_pos : option Position;
  err_context : option Context
}.

Definition new_ActiveRuntimeError (details : string)
    (start_pos end_pos : option Position) (context : option Context)
  : ActiveRuntimeError :=
  {| error_name := "ActiveRuntimeError";
     error_details := "Runtime error encountered (" +:+ details +:+ ").";
     start_pos := start_pos;
     end_pos := end_pos;
     err_context := context |}.

(** Python exceptions that escape the evaluator. *)
Inductive PyException :=
| AttributeError
| KeyError (key : string)
| TypeError
| OverflowError.

Definition newline : string := String "010"%char EmptyString.
Definition dquote : string := String "034"%char EmptyString.

(** ['{}'.format(n)] for a non-negative [int]. *)
Definition format_int (n : nat) : string :=
  NilZero.string_of_uint (Nat.to_uint n).

(** The [while context:] loop of [generate_traceback], entered with a
    context that is not [None]: the line
    ['File {}, line {}, in {}\n'.format(position.fn, position.ln + 1,
    context.display_name)] of each frame is put in front of [result].
    [position.fn] on [None] is an [AttributeError].  A [Context] is truthy
    exactly when it is not [None]. *)
Fixpoint traceback_loop (result : string) (context : Context)
    (position : option Position) : PyException + string :=
  match position with
  | None => inl AttributeError
  | Some p =>
      let result :=
        ("File " +:+ fn p +:+ ", line " +:+ format_int (ln p + 1)
         +:+ ", in " +:+ display_name context +:+ newline) +:+ result in
      match context with
      | mkContext _ parent_context parent_entry_pos _ =>
          match parent_context with
          | None => inr result
          | Some ctx => traceback_loop result ctx parent_entry_pos
          end
      end
  end.

Definition traceback_header : string :=
  newline +:+ "Traceback (most recent call last):" +:+ newline.

Definition generate_traceback (self : ActiveRuntimeError)
  : PyException + string :=
  match err_context self with
  | None => inr (traceback_header +:+ EmptyString)
  | Some context =>
      match traceback_loop EmptyString context (start_pos self) with
      | inl e => inl e
      | inr result => inr (traceback_header +:+ result)
      end
  end.

(** ** The store and the [SymbolTable] class ([bin/symbol_table.py]) *)

(** The store: the [symbols] dictionary of every [SymbolTable] object made
    so far, by cell, and the next unused cell. *)
Record Heap := mkHeap {
  tables : gmap nat (gmap string Value);
  next_cell : nat
}.

(** [self.symbols] *)
Definition symbols (h : Heap) (self : SymbolTable) : gmap string Value :=
  default ∅ (tables h !! cell self).

(** The outcome of running a piece of the program on a store: it returns a
    result and leaves a store, or an uncaught Python exception ends the run,
    or the fuel given to the model is used up. *)
Inductive Outcome (A : Type) :=
| Ret (a : A) (h : Heap)
| Raise (e : PyException)
| OutOfFuel.
Arguments Ret {A} a h.
Arguments Raise {A} e.
Arguments OutOfFuel {A}.

Definition M (A : Type) : Type := Heap -> Outcome A.

Definition ret {A} (a : A) : M A := fun h => Ret a h.
Definition raise {A} (e : PyException) : M A := fun _ => Raise e.
Definition bind {A B} (m : M A) (k : A -> M B) : M B :=
  fun h =>
    match m h with
    | Ret a h' => k a h'
    | Raise e => Raise e
    | OutOfFuel => OutOfFuel
    end.

Notation "x <- m ;; k" := (bind m (fun x => k))
  (at level 100, m at next level, right associativity).

(** The entries written by [__init__]: ['NULL'], ['TRUE'] and ['FALSE']. *)
Definition special_values : gmap string Value :=
  <["FALSE" := Number 0]> (<["TRUE" := Number 1]> (<["NULL" := Number 0]> ∅)).

(** [SymbolTable(parent)]: a new object with its own dictionary. *)
Definition new_SymbolTable (parent : option SymbolTable) : M SymbolTable :=
  fun h =>
    let c := next_cell h in
    Ret (mkSymbolTable c parent)
        {| tables := <[c := special_values]> (tables h);
           next_cell := S c |}.

(** [dict.get(key, default)] *)
Definition dict_get (d : gmap string Value) (key : string) (dflt : Value)
  : Value :=
  default dflt (d !! key).

(** [SymbolTable.get(variable_name, default=None)].  A [SymbolTable] defines
    neither [__bool__] nor [__len__], so [self.parent] is truthy exactly when
    it is not [None]. *)
Fixpoint get (h : Heap) (self : SymbolTable) (variable_name : string)
    (dflt : Value) : Value :=
  match self with
  | mkSymbolTable _ parent =>
      let variable_value := dict_get (symbols h self) variable_name dflt in
      match parent with
      | Some p =>
          if is_none variable_value then get h p variable_name dflt
          else variable_value
      | None => variable_value
      end
  end.

(** [SymbolTable.set(variable_name, variable_value)] *)
Definition set (self : SymbolTable) (variable_name : string)
    (variable_value : Value) : M unit :=
  fun h =>
    Ret tt {| tables := <[cell self :=
                            <[variable_name := variable_value]> (symbols h self)]>
                          (tables h);
              next_cell := next_cell h |}.

(** [SymbolTable.remove(variable_name)]: [del self.symbols[variable_name]]
    raises [KeyError] when the key is not in the dictionary. *)
Definition remove (self : SymbolTable) (variable_name : string) : M unit :=
  fun h =>
    match symbols h self !! variable_name with
    | None => Raise (KeyError variable_name)
    | Some _ =>
        Ret tt {| tables := <[cell self := delete variable_name (symbols h self)]>
                              (tables h);
                  next_cell := next_cell h |}
    end.

(** ** Control-flow results *)

(** Modelled from the spec: [bin/runtime_result.py] is not part of the
    sources.  A record with the fields value, error, return-value,
    break-flag and continue-flag; each constructor establishes that only its
    own field is set. *)
Record RuntimeResult := mkResult {
  rr_value : Value;
  rr_error : option ActiveRuntimeError;
  func_return_value : Value;
  loop_should_continue : bool;
  loop_should_break : bool
}.

(** Modelled from the spec: [RuntimeResult()], with nothing set. *)
Definition new_RuntimeResult : RuntimeResult :=
  mkResult PyNone None PyNone false false.

(** Modelled from the spec: [success(value)], the value path.  Like the
    four constructors after it, it sets its own field and clears the
    others, whatever [self] held. *)
Definition success (value : Value) : RuntimeResult :=
  mkResult value None PyNone false false.

(** Modelled from the spec: [failure(error)], the error path. *)
Definition failure (error : ActiveRuntimeError) : RuntimeResult :=
  mkResult PyNone (Some error) PyNone false false.

(** Modelled from the spec: [success_return(value)] carries a function
    return. *)
Definition success_return (value : Value) : RuntimeResult :=
  mkResult PyNone None value false false.

(** Modelled from the spec: [success_continue()] carries a loop continue. *)
Definition success_continue : RuntimeResult :=
  mkResult PyNone None PyNone true false.

(** Modelled from the spec: [success_break()] carries a loop break. *)
Definition success_break : RuntimeResult :=
  mkResult PyNone None PyNone false true.

(** Modelled from the spec: [self.register(inner)] copies inner's error and
    control-flow signals into [self] and yields inner's value: the pair is
    the value and the new state of [self]. *)
Definition register (self inner : RuntimeResult) : Value * RuntimeResult :=
  (rr_value inner,
   mkResult (rr_value self) (rr_error inner) (func_return_value inner)
            (loop_should_continue inner) (loop_should_break inner)).

(** Modelled from the spec: [should_return()] is true when any of error,
    return-value, break-flag or continue-flag is set. *)
Definition should_return (self : RuntimeResult) : bool :=
  match rr_error self with Some _ => true | None => false end
  || negb (is_none (func_return_value self))
  || loop_should_continue self
  || loop_should_break self.

(** ** The value system *)

(** Modelled from the spec: an operation of a value returns either a value
    and no error, or no value and an error. *)
Inductive OpResult :=
| OpOk (result : Value)
| OpError (error : ActiveRuntimeError).

(** The operations of the value classes ([bin/number.py], [bin/string.py],
    [bin/list.py], [bin/function.py]) are not part of the sources: the
    evaluator only calls them.  They are taken as an interface, and the
    evaluator is defined for every implementation of it. *)
Class ValueSystem := {
  (** [left.add_to(right)], [left.subtract_by(right)], ...: the method that
      [visit_binopnode] selects for the operator token. *)
  binary_operation : BinOperator -> Value -> Value -> OpResult;
  (** [number.notted()] *)
  notted : Value -> OpResult;
  (** [value.is_true()] *)
  is_true : Value -> bool
}.

(** Modelled from the spec: an unsupported operation returns an "illegal
    operation" runtime error whose position spans the receiver's source span
    and whose context is the receiver's attached context. *)
Definition illegal_operation (receiver : Value) : ActiveRuntimeError :=
  new_ActiveRuntimeError "Illegal operation"
    (fst <$> value_pos receiver) (snd <$> value_pos receiver)
    (value_context receiver).

(** ** Function invocation *)

Section Evaluator.

Context `{VS : ValueSystem}.

(** The evaluator that the methods below call on child nodes:
    [self.visit(node, context)]. *)
Variable ev : Node -> Context -> M RuntimeResult.

(** Modelled from the spec: [BaseFunction.generate_new_context] is in
    [bin/function.py], which is not part of the sources.  The new context's
    display name is the function's name (or "<anonymous>"), its parent is
    the function's captured defining context, its entry position is the
    function value's start position, and its environment is a fresh one
    whose parent is the defining context's environment.  A function value
    without a context has no environment to extend: [None.symbol_table]. *)
Definition generate_new_context (self : Value) : M Context :=
  match self with
  | VFunction name _ _ _ pos (Some defining) =>
      table <- new_SymbolTable (Some (symbol_table defining)) ;;
      ret (mkContext (default "<anonymous>" name) (Some defining)
                     (fst <$> pos) table)
  | _ => raise AttributeError
  end.

(** Modelled from the spec: each parameter name is bound to the
    corresponding argument value in the environment of the new context. *)
Fixpoint populate_args (arg_names : list string) (args : list Value)
    (exec_context : Context) : M unit :=
  match arg_names, args with
  | arg_name :: arg_names', arg_value :: args' =>
      _ <- set (symbol_table exec_context) arg_name arg_value ;;
      populate_args arg_names' args' exec_context
  | _, _ => ret tt
  end.

(** Modelled from the spec: [BaseFunction.check_and_populate_args].  The
    number of arguments must equal the number of parameter names, else the
    call fails with "Too many / too few args passed"; each parameter name is
    then bound to the corresponding argument value in the new environment. *)
Definition check_and_populate_args (self : Value) (arg_names : list string)
    (args : list Value) (exec_context : Context) : M RuntimeResult :=
  if (length arg_names <? length args)%nat then
    ret (failure (new_ActiveRuntimeError "Too many args passed"
                    (fst <$> value_pos self) (snd <$> value_pos self)
                    (value_context self)))
  else if (length args <? length arg_names)%nat then
    ret (failure (new_ActiveRuntimeError "Too few args passed"
                    (fst <$> value_pos self) (snd <$> value_pos self)
                    (value_context self)))
  else
    _ <- populate_args arg_names args exec_context ;;
    ret (success PyNone).

(** [Function.execute(args)].  On an instance of another class the call is
    an unsupported operation (modelled from the spec: it fails with the
    illegal-operation error); on [None] it is an [AttributeError]. *)
Definition execute (self : Value) (args : list Value) : M RuntimeResult :=
  match self with
  | VFunction name body_node arg_names should_auto_return _ _ =>
      let runtime_result := new_RuntimeResult in
      exec_context <- generate_new_context self ;;
      checked <- check_and_populate_args self arg_names args exec_context ;;
      let '(_, runtime_result) := register runtime_result checked in
      if should_return runtime_result then ret runtime_result else
      inner <- ev body_node exec_context ;;
      let '(value, runtime_result) := register runtime_result inner in
      if should_return runtime_result
         && is_none (func_return_value runtime_result)
      then ret runtime_result else
      let return_value :=
        py_or (py_or (if should_auto_return then value else PyNone)
                     (func_return_value runtime_result))
              (Number 0) in
      ret (success return_value)
  | PyNone => raise AttributeError
  | _ => ret (failure (illegal_operation self))
  end.

(** ** The evaluator ([Interpreter]) *)

Definition visit_numbernode (sp : Span) (value : PyNumber)
    (context : Context)
  : M RuntimeResult :=
  ret (success (set_position (set_context (Number value) context) sp)).

Definition visit_stringnode (sp : Span) (value : string) (context : Context)
  : M RuntimeResult :=
  ret (success (set_position (set_context (String_ value) context) sp)).

(** The tail of [visit_binopnode], after both operands were visited and
    registered.  The second [should_return()] test of the source (after the
    dispatch) reads the same unchanged record as the first and is never
    taken. *)
Definition binop_dispatch (sp : Span) (op_token : BinOperator)
    (left_value right_value : Value) (runtime_result : RuntimeResult)
  : M RuntimeResult :=
  if should_return runtime_result then ret runtime_result else
  match left_value with
  | PyNone => raise AttributeError
  | _ =>
      match binary_operation op_token left_value right_value with
      | OpError error => ret (failure error)
      | OpOk PyNone => raise AttributeError
      | OpOk result => ret (success (set_position result sp))
      end
  end.

Definition visit_binopnode (sp : Span) (left_node right_node : Node)
    (op_token : BinOperator) (context : Context) : M RuntimeResult :=
  let runtime_result := new_RuntimeResult in
  inner <- ev left_node context ;;
  let '(left_value, runtime_result) := register runtime_result inner in
  inner <- ev right_node context ;;
  let '(right_value, runtime_result) := register runtime_result inner in
  binop_dispatch sp op_token left_value right_value runtime_result.

Definition visit_unaryopnode (sp : Span) (op_token : UnaryOperator)
    (right_node : Node) (context : Context) : M RuntimeResult :=
  let runtime_result := new_RuntimeResult in
  inner <- ev right_node context ;;
  let '(number, runtime_result) := register runtime_result inner in
  if should_return runtime_result then ret runtime_result else
  match number with
  | PyNone => raise AttributeError
  | _ =>
      let outcome :=
        match op_token with
        | U_MINUS => binary_operation TP_MUL number (Number (-1))
        | U_NOT => notted number
        | U_OTHER => OpOk number
        end in
      match outcome with
      | OpError error => ret (failure error)
      | OpOk PyNone => raise AttributeError
      | OpOk number => ret (success (set_position number sp))
      end
  end.

(** [visit_varaccessnode].  When the name is not found the method builds the
    failing result but does not return it; the next statement then calls
    [copy] on [None]. *)
Definition visit_varaccessnode (sp : Span) (var_name : string)
    (context : Context) : M RuntimeResult :=
  fun h =>
    let runtime_result := new_RuntimeResult in
    let var_value := get h (symbol_table context) var_name PyNone in
    let runtime_result :=
      if is_none var_value then
        failure (new_ActiveRuntimeError
                   ("VAR " +:+ dquote +:+ var_name +:+ dquote +:+ " not defined")
                   (Some (fst sp)) (Some (snd sp)) (Some context))
      else runtime_result in
    match var_value with
    | PyNone => Raise AttributeError
    | _ =>
        let var_value := set_context (set_position (copy var_value) sp) context in
        Ret (success var_value) h
    end.

Definition visit_varassignnode (sp : Span) (var_name : string)
    (value_node : Node) (context : Context) : M RuntimeResult :=
  let runtime_result := new_RuntimeResult in
  inner <- ev value_node context ;;
  let '(var_value, runtime_result) := register runtime_result inner in
  if should_return runtime_result then ret runtime_result else
  _ <- set (symbol_table context) var_name var_value ;;
  ret (success var_value).

(** The [for condition, expr, should_return_null in node.cases] loop of
    [visit_ifnode]: [inl] is the result the method returns from inside the
    loop, [inr] the state of [runtime_result] when the loop runs out. *)
Fixpoint visit_cases (cases : list (Node * Node * bool)) (context : Context)
    (runtime_result : RuntimeResult) : M (RuntimeResult + RuntimeResult) :=
  match cases with
  | [] => ret (inr runtime_result)
  | (condition, expr, should_return_null) :: cases' =>
      inner <- ev condition context ;;
      let '(condition_value, runtime_result) := register runtime_result inner in
      if should_return runtime_result then ret (inl runtime_result) else
      match condition_value with
      | PyNone => raise AttributeError
      | _ =>
          if is_true condition_value then
            inner <- ev expr context ;;
            let '(expr_value, runtime_result) := register runtime_result inner in
            if should_return runtime_result then ret (inl runtime_result) else
            ret (inl (success (if should_return_null : bool then Number 0
                               else expr_value)))
          else visit_cases cases' context runtime_result
      end
  end.

Definition visit_ifnode (sp : Span) (cases : list (Node * Node * bool))
    (else_case : option (Node * bool)) (context : Context) : M RuntimeResult :=
  let runtime_result := new_RuntimeResult in
  looped <- visit_cases cases context runtime_result ;;
  match looped with
  | inl returned => ret returned
  | inr runtime_result =>
      match else_case with
      | Some (expr, should_return_null) =>
          inner <- ev expr context ;;
          let '(expr_value, runtime_result) := register runtime_result inner in
          if should_return runtime_result then ret runtime_result else
          ret (success (if should_return_null : bool then Number 0
                        else expr_value))
      | None => ret (success (Number 0))
      end
  end.

(** What a loop hands back to its method: the result that the method
    returns from inside the loop, or the collected [elements] when the loop
    is left through its condition or through [break]. *)
Inductive LoopExit :=
| LoopReturn (runtime_result : RuntimeResult)
| LoopDone (elements : list Value).

(** The part of a loop iteration shared by [visit_fornode] and
    [visit_whilenode], from the test on the registered body result on:
    return from the method, [continue], [break], or append and go on.
    [again] is the rest of the loop. *)
Definition after_body (current_value : Value) (runtime_result : RuntimeResult)
    (elements : list Value) (again : list Value -> M LoopExit) : M LoopExit :=
  if should_return runtime_result
     && negb (loop_should_continue runtime_result)
     && negb (loop_should_break runtime_result)
  then ret (LoopReturn runtime_result)
  else if loop_should_continue runtime_result then again elements
  else if loop_should_break runtime_result then ret (LoopDone elements)
  else again (elements ++ [current_value])%list.

(** The [while condition():] loop of [visit_fornode] on numbers.
    [condition] is the lambda chosen before the loop; it reads the current
    [index].  [index += step_value.value] comes before the body and can
    raise [OverflowError].  Every iteration uses one unit of [fuel].  The
    method's [runtime_result] has no value while the loop runs and
    [register] overwrites its other fields, so each iteration registers on a
    record with nothing set. *)
Fixpoint for_loop (fuel : nat) (condition : PyNumber -> bool)
    (step_value : PyNumber) (var_name : string) (body_node : Node)
    (context : Context) (index : PyNumber) (elements : list Value)
  : M LoopExit :=
  match fuel with
  | O => fun _ => OutOfFuel
  | S fuel' =>
      if condition index then
        _ <- set (symbol_table context) var_name (Number index) ;;
        match py_add index step_value with
        | None => raise OverflowError
        | Some index =>
            inner <- ev body_node context ;;
            let '(current_value, runtime_result) :=
              register new_RuntimeResult inner in
            after_body current_value runtime_result elements
              (for_loop fuel' condition step_value var_name body_node context
                        index)
        end
      else ret (LoopDone elements)
  end.

(** What the [value] attribute of a runtime value can hold: a number or a
    string. *)
Inductive PyScalar :=
| PyNum (n : PyNumber)
| PyStr (s : string).

(** Modelled from the spec: the [value] attribute of a runtime value, read
    by [visit_fornode].  It is the payload of a [Number] and of a [String]
    (the evaluator builds both from [token.value]); [None], a [List] (built
    from its elements) and a [Function] have no such attribute. *)
Definition attr_value (v : Value) : option PyScalar :=
  match v with
  | VNumber n _ _ => Some (PyNum n)
  | VString s _ _ => Some (PyStr s)
  | _ => None
  end.

(** [condition = lambda: index < end_value.value] when the step is not
    negative, [lambda: index > end_value.value] otherwise. *)
Definition for_condition (step_value end_value : PyNumber)
  : PyNumber -> bool :=
  if py_ge step_value 0 then fun index => py_lt index end_value
  else fun index => py_gt index end_value.

(** Lines 204 to 222 of [visit_fornode], from [index = start_value.value]
    to the end of the loop.  Between two strings the comparison of the
    condition is the lexicographic one; when it holds, [index += step] adds
    a number to a [str].  A string and a number cannot be compared. *)
Definition for_iterations (fuel : nat) (var_name : string) (body_node : Node)
    (context : Context) (start_value end_value step_value : Value)
  : M LoopExit :=
  match attr_value start_value with
  | None => raise AttributeError
  | Some index =>
      match attr_value step_value with
      | None => raise AttributeError
      | Some (PyStr _) => raise TypeError
      | Some (PyNum step) =>
          match attr_value end_value with
          | None => raise AttributeError
          | Some finish =>
              match index, finish with
              | PyNum i, PyNum e =>
                  for_loop fuel (for_condition step e) step var_name body_node
                           context i []
              | PyStr i, PyStr e =>
                  if (if py_ge step 0 then String.ltb i e else String.ltb e i)
                  then raise TypeError
                  else ret (LoopDone [])
              | _, _ => raise TypeError
              end
          end
      end
  end.

(** The value both loops return on normal completion. *)
Definition loop_value (sp : Span) (should_return_null : bool)
    (elements : list Value) (context : Context) : Value :=
  if should_return_null then Number 0
  else set_position (set_context (List_ elements) context) sp.

Definition visit_fornode (fuel : nat) (sp : Span) (var_name : string)
    (start_value_node end_value_node : Node) (step_value_node : option Node)
    (body_node : Node) (should_return_null : bool) (context : Context)
  : M RuntimeResult :=
  let runtime_result := new_RuntimeResult in
  inner <- ev start_value_node context ;;
  let '(start_value, runtime_result) := register runtime_result inner in
  if should_return runtime_result then ret runtime_result else
  inner <- ev end_value_node context ;;
  let '(end_value, runtime_result) := register runtime_result inner in
  if should_return runtime_result then ret runtime_result else
  stepped <-
    match step_value_node with
    | Some node =>
        inner <- ev node context ;;
        ret (register runtime_result inner)
    | None => ret (Number 1, runtime_result)
    end ;;
  let '(step_value, runtime_result) := stepped in
  if should_return runtime_result then ret runtime_result else
  looped <- for_iterations fuel var_name body_node context
                           start_value end_value step_value ;;
  match looped with
  | LoopReturn returned => ret returned
  | LoopDone elements =>
      ret (success (loop_value sp should_return_null elements context))
  end.

(** The [while True:] loop of [visit_whilenode]. *)
Fixpoint while_loop (fuel : nat) (condition body_node : Node)
    (context : Context) (elements : list Value) : M LoopExit :=
  match fuel with
  | O => fun _ => OutOfFuel
  | S fuel' =>
      inner <- ev condition context ;;
      let '(condition_value, runtime_result) :=
        register new_RuntimeResult inner in
      if should_return runtime_result then ret (LoopReturn runtime_result) else
      match condition_value with
      | PyNone => raise AttributeError
      | _ =>
          if negb (is_true condition_value) then ret (LoopDone elements) else
          inner <- ev body_node context ;;
          let '(current_value, runtime_result) :=
            register runtime_result inner in
          after_body current_value runtime_result elements
            (while_loop fuel' condition body_node context)
      end
  end.

Definition visit_whilenode (fuel : nat) (sp : Span) (condition body_node : Node)
    (should_return_null : bool) (context : Context) : M RuntimeResult :=
  looped <- while_loop fuel condition body_node context [] ;;
  match looped with
  | LoopReturn returned => ret returned
  | LoopDone elements =>
      ret (success (loop_value sp should_return_null elements context))
  end.

Definition visit_funcdefnode (sp : Span) (var_name_token : option string)
    (arg_name_tokens : list string) (body_node : Node)
    (should_auto_return : bool) (context : Context) : M RuntimeResult :=
  let func_name := var_name_token in
  let arg_names := arg_name_tokens in
  let func_node :=
    set_position
      (set_context (Function func_name body_node arg_names should_auto_return)
                   context) sp in
  _ <- match var_name_token with
       | Some name => set (symbol_table context) name func_node
       | None => ret tt
       end ;;
  ret (success func_node).

(** The loop shared by [visit_callnode] (over [node.arg_nodes]) and
    [visit_listnode] (over [node.element_nodes]): visit, register, append,
    and return from the method when the result is not a normal one. *)
Fixpoint visit_each (nodes : list Node) (context : Context)
    (collected : list Value) : M LoopExit :=
  match nodes with
  | [] => ret (LoopDone collected)
  | node :: nodes' =>
      inner <- ev node context ;;
      let '(value, runtime_result) := register new_RuntimeResult inner in
      let collected := (collected ++ [value])%list in
      if should_return runtime_result then ret (LoopReturn runtime_result)
      else visit_each nodes' context collected
  end.

Definition visit_callnode (sp : Span) (node_to_call : Node)
    (arg_nodes : list Node) (context : Context) : M RuntimeResult :=
  let runtime_result := new_RuntimeResult in
  inner <- ev node_to_call context ;;
  let '(value_to_call, runtime_result) := register runtime_result inner in
  if should_return runtime_result then ret runtime_result else
  match value_to_call with
  | PyNone => raise AttributeError
  | _ =>
      let value_to_call := set_position (copy value_to_call) sp in
      looped <- visit_each arg_nodes context [] ;;
      match looped with
      | LoopReturn returned => ret returned
      | LoopDone args =>
          inner <- execute value_to_call args ;;
          let '(return_value, runtime_result) := register runtime_result inner in
          if should_return runtime_result then ret runtime_result else
          match return_value with
          | PyNone => raise AttributeError
          | _ =>
              ret (success (set_context (set_position (copy return_value) sp)
                                        context))
          end
      end
  end.

Definition visit_listnode (sp : Span) (element_nodes : list Node)
    (context : Context) : M RuntimeResult :=
  looped <- visit_each element_nodes context [] ;;
  match looped with
  | LoopReturn returned => ret returned
  | LoopDone elements =>
      ret (success (set_position (set_context (List_ elements) context) sp))
  end.

Definition visit_returnnode (sp : Span) (node_to_return : option Node)
    (context : Context) : M RuntimeResult :=
  let runtime_result := new_RuntimeResult in
  match node_to_return with
  | Some node =>
      inner <- ev node context ;;
      let '(value, runtime_result) := register runtime_result inner in
      if should_return runtime_result then ret runtime_result else
      ret (success_return value)
  | None => ret (success_return (Number 0))
  end.

Definition visit_continuenode : M RuntimeResult := ret success_continue.

Definition visit_breaknode : M RuntimeResult := ret success_break.

End Evaluator.

(** [Interpreter.visit]: the dispatch on the class of the node.  Every node
    class of the syntax has its [visit_] method, so [no_visit_method] is
    never reached.  [fuel] bounds the depth of nested visits and the number
    of iterations of each loop. *)
Fixpoint visit `{VS : ValueSystem} (fuel : nat) (node : Node)
    (context : Context) : M RuntimeResult :=
  match fuel with
  | O => fun _ => OutOfFuel
  | S fuel' =>
      let ev := visit fuel' in
      match node with
      | NumberNode sp value => visit_numbernode sp value context
      | StringNode sp value => visit_stringnode sp value context
      | ListNode sp element_nodes => visit_listnode ev sp element_nodes context
      | BinOpNode sp left_node op_token right_node =>
          visit_binopnode ev sp left_node right_node op_token context
      | UnaryOpNode sp op_token right_node =>
          visit_unaryopnode ev sp op_token right_node context
      | VarAccessNode sp var_name => visit_varaccessnode sp var_name context
      | VarAssignNode sp var_name value_node =>
          visit_varassignnode ev sp var_name value_node context
      | IfNode sp cases else_case => visit_ifnode ev sp cases else_case context
      | ForNode sp var_name start_value_node end_value_node step_value_node
                body_node should_return_null =>
          visit_fornode ev fuel' sp var_name start_value_node end_value_node
                        step_value_node body_node should_return_null context
      | WhileNode sp condition body_node should_return_null =>
          visit_whilenode ev fuel' sp condition body_node should_return_null
                          context
      | FuncDefNode sp var_name_token arg_name_tokens body_node
                    should_auto_return =>
          visit_funcdefnode sp var_name_token arg_name_tokens body_node
                            should_auto_return context
      | CallNode sp node_to_call arg_nodes =>
          visit_callnode ev sp node_to_call arg_nodes context
      | ReturnNode sp node_to_return =>
          visit_returnnode ev sp node_to_return context
      | ContinueNode _ => visit_continuenode
      | BreakNode _ => visit_breaknode
      end
  end.

(** [Function.execute] as the evaluator runs it: the body is visited by a
    new [Interpreter]. *)
Definition Function_execute `{VS : ValueSystem} (fuel : nat) (self : Value)
    (args : list Value) : M RuntimeResult :=
  execute (visit fuel) self args.

(** ** Notions used to state the properties *)

(** The scopes that [get] walks: the table itself, then its ancestors. *)
Fixpoint scope_chain (t : SymbolTable) : list SymbolTable :=
  match t with
  | mkSymbolTable _ parent =>
      t :: match parent with
           | Some p => scope_chain p
           | None => []
           end
  end.

(** [unshadowed_descendant h name s d]: [d] is a descendant of [s], and no
    scope from [d] up to, but not including, [s] binds [name]. *)
Inductive unshadowed_descendant (h : Heap) (name : string) (s : SymbolTable)
  : SymbolTable -> Prop :=
| unshadowed_child c :
    symbols h (mkSymbolTable c (Some s)) !! name = None ->
    unshadowed_descendant h name s (mkSymbolTable c (Some s))
| unshadowed_further c p :
    symbols h (mkSymbolTable c (Some p)) !! name = None ->
    unshadowed_descendant h name s p ->
    unshadowed_descendant h name s (mkSymbolTable c (Some p)).

(** The contexts reached from [context] by following parent links,
    innermost first. *)
Fixpoint context_chain (context : Context) : list Context :=
  match context with
  | mkContext _ parent_context _ _ =>
      context :: match parent_context with
                 | Some ctx => context_chain ctx
                 | None => []
                 end
  end.

(** The frames of a failure at [position] in [context], innermost first:
    every context with the position at which it was left (the failure site
    for the innermost one, the entry position of the child for the others).
    [None] when one of these positions is missing. *)
Fixpoint frame_list (context : Context) (position : option Position)
  : option (list (Position * Context)) :=
  match position with
  | None => None
  | Some p =>
      match context with
      | mkContext _ parent_context parent_entry_pos _ =>
          match parent_context with
          | None => Some [(p, context)]
          | Some ctx =>
              match frame_list ctx parent_entry_pos with
              | Some frames => Some ((p, context) :: frames)
              | None => None
              end
          end
      end
  end.

(** The line that a traceback has for a frame: the file and the line of the
    position, lines counted from 1, and the name of the context. *)
Definition frame_line (position : Position) (context : Context) : string :=
  "File " +:+ fn position +:+ ", line " +:+ format_int (S (ln position))
  +:+ ", in " +:+ display_name context +:+ newline.

(** The lines of a list of frames, first frame first. *)
Fixpoint traceback_lines (frames : list (Position * Context)) : string :=
  match frames with
  | [] => EmptyString
  | (p, ctx) :: frames' => frame_line p ctx +:+ traceback_lines frames'
  end.

(** [ceil (a / b)] on integers, for [b] of either sign. *)
Definition ceil_div (a b : Z) : Z := - ((- a) / b).

(** The iteration count the specification gives for a loop from [s] to [e]
    by steps of [k]: [max(0, ceil((e - s) / k))]. *)
Definition iteration_count (s e k : Z) : nat :=
  Z.to_nat (Z.max 0 (ceil_div (e - s) k)).





(** The discipline of control-flow results: a result that carries an error
    or a signal carries no value, and a normal result carries one. *)
Definition disciplined (r : RuntimeResult) : Prop :=
  if should_return r then rr_value r = PyNone
  else is_none (rr_value r) = false.

(** What a loop returns from inside: a signal, registered. *)
Definition registered_signal (r : RuntimeResult) : Prop :=
  should_return r = true /\ rr_value r = PyNone.

(** The value that the scopes of a chain give for a name, nearest scope
    first: the first binding that is not [None]. *)
Fixpoint nearest_binding (h : Heap) (chain : list SymbolTable)
    (name : string) : Value :=
  match chain with
  | [] => PyNone
  | s :: chain' =>
      if is_none (dict_get (symbols h s) name PyNone)
      then nearest_binding h chain' name
      else dict_get (symbols h s) name PyNone
  end.

(** [keeps_other_tables own h h']: from [h] to [h'] no table is lost, and
    every table that exists in [h], except the one in cell [own], has the
    dictionary it had. *)
Definition keeps_other_tables (own : nat) (h h' : Heap) : Prop :=
  (next_cell h <= next_cell h')%nat
  /\ forall c, (c < next_cell h)%nat -> c <> own ->
               tables h' !! c = tables h !! c.

(** [visited_in_order ev ctx h nodes values h']: the nodes evaluate one
    after the other, each on the store left by the one before, each to a
    normal result; [values] are their values and [h'] is the last store. *)
Inductive visited_in_order (ev : Node -> Context -> M RuntimeResult)
    (ctx : Context) : Heap -> list Node -> list Value -> Heap -> Prop :=
| in_order_nil h : visited_in_order ev ctx h [] [] h
| in_order_cons h node nodes r h1 values h2 :
    ev node ctx h = Ret r h1 ->
    should_return r = false ->
    visited_in_order ev ctx h1 nodes values h2 ->
    visited_in_order ev ctx h (node :: nodes) (rr_value r :: values) h2.

(** [conditions_fail ev ctx h cases h']: the conditions of the cases
    evaluate one after the other, each to a normal value that is not true;
    [h'] is the store the last one leaves. *)
Inductive conditions_fail `{VS : ValueSystem}
    (ev : Node -> Context -> M RuntimeResult) (ctx : Context)
  : Heap -> list (Node * Node * bool) -> Heap -> Prop :=
| fail_nil h : conditions_fail ev ctx h [] h
| fail_cons h condition expr null cases r h1 h2 :
    ev condition ctx h = Ret r h1 ->
    should_return r = false ->
    is_true (rr_value r) = false ->
    conditions_fail ev ctx h1 cases h2 ->
    conditions_fail ev ctx h ((condition, expr, null) :: cases) h2.

(** What [visit_ifnode] makes of the result of the branch it takes. *)
Definition branch_result (inner : RuntimeResult) (should_return_null : bool)
  : RuntimeResult :=
  if should_return inner then inner
  else success (if should_return_null then Number 0 else rr_value inner).

(** The nodes whose normal result carries the span of the node itself: the
    method ends in [set_position(node.start_pos, node.end_pos)]. *)
Definition own_span (node : Node) : option Span :=
  match node with
  | NumberNode sp _ | StringNode sp _ | ListNode sp _ | BinOpNode sp _ _ _
  | UnaryOpNode sp _ _ | VarAccessNode sp _ | FuncDefNode sp _ _ _ _
  | CallNode sp _ _ => Some sp
  | _ => None
  end.

(** The five states of a control-flow result: a value, an error, a return
    value, continue, break. *)
Definition one_state (r : RuntimeResult) : Prop :=
  (exists v, is_none v = false /\ r = success v)
  \/ (exists e, r = failure e)
  \/ (exists v, is_none v = false /\ r = success_return v)
  \/ r = success_continue
  \/ r = success_break.

(** A result that was registered on a record without value and carries a
    signal. *)
Definition signal_state (r : RuntimeResult) : Prop :=
  should_return r = true /\ one_state r.

(** *** An implementation of the value interface, to run programs *)

(** Modelled from the spec: the result of a comparison or of a logical
    operation, the [Number] 1 or 0. *)
Definition bool_number (b : bool) (context : option Context) : Value :=
  VNumber (if b then 1 else 0) None context.

(** Modelled from the spec: a zero divisor fails with "Division by zero";
    the error is reported at the divisor. *)
Definition division_by_zero (other : Value) (context : option Context)
  : ActiveRuntimeError :=
  new_ActiveRuntimeError "Division by zero"
    (fst <$> value_pos other) (snd <$> value_pos other) context.

(** Modelled from the spec: what section 4.A says of two [Number] operands
    with [int] payloads whose result is again an [int]: addition,
    subtraction, multiplication, integer division and modulo (a zero divisor
    fails, also for [/]), the comparisons and the logical operations.  Every
    other combination (another class or a [float] payload on either side,
    the quotient of [/] and powers, which are floats) is answered here with
    the illegal-operation error. *)
Definition int_binary_operation (op : BinOperator) (self other : Value)
  : OpResult :=
  match self, other with
  | VNumber (PyInt a) _ c, VNumber (PyInt b) _ _ =>
      match op with
      | TP_PLUS => OpOk (VNumber (a + b) None c)
      | TP_MINUS => OpOk (VNumber (a - b) None c)
      | TP_MUL => OpOk (VNumber (a * b) None c)
      | TP_CLEAN_DIV =>
          if b =? 0 then OpError (division_by_zero other c)
          else OpOk (VNumber (a / b) None c)
      | TP_MODULO =>
          if b =? 0 then OpError (division_by_zero other c)
          else OpOk (VNumber (a mod b) None c)
      | TP_DIV =>
          if b =? 0 then OpError (division_by_zero other c)
          else OpError (illegal_operation self)
      | TP_POWER => OpError (illegal_operation self)
      | TP_EE => OpOk (bool_number (a =? b) c)
      | TP_NE => OpOk (bool_number (negb (a =? b)) c)
      | TP_LT => OpOk (bool_number (a <? b) c)
      | TP_LTE => OpOk (bool_number (a <=? b) c)
      | TP_GT => OpOk (bool_number (a >? b) c)
      | TP_GTE => OpOk (bool_number (a >=? b) c)
      | KW_AND => OpOk (bool_number (negb (a =? 0) && negb (b =? 0)) c)
      | KW_OR => OpOk (bool_number (negb (a =? 0) || negb (b =? 0)) c)
      end
  | _, _ => OpError (illegal_operation self)
  end.

(** Modelled from the spec: logical NOT of a [Number] is 1 if it is 0, else
    0. *)
Definition int_notted (self : Value) : OpResult :=
  match self with
  | VNumber (PyInt a) _ c => OpOk (bool_number (a =? 0) c)
  | _ => OpError (illegal_operation self)
  end.

(** Modelled from the spec: truthiness.  A [Number] is true when it is not
    0, a [String] and a [List] when they are not empty, a function always. *)
Definition value_is_true (self : Value) : bool :=
  match self with
  | PyNone => false
  | VNumber a _ _ =>
      match py_compare a 0 with Some Eq => false | _ => true end
  | VString s _ _ => negb (String.eqb s EmptyString)
  | VList l _ _ => match l with [] => false | _ => true end
  | VFunction _ _ _ _ _ _ => true
  end.

(** The implementation of the interface used to run the evaluator on
    concrete programs. *)
Definition int_value_system : ValueSystem :=
  {| binary_operation := int_binary_operation;
     notted := int_notted;
     is_true := value_is_true |}.

(** ** A top-level run, for the examples *)

Definition shell_position : Position :=
  {| idx := 0; ln := 0; col := 0; fn := "<stdin>"; ftxt := "FOR" |}.

Definition shell_span : Span := (shell_position, shell_position).

(** The program's context: the global environment, in the first cell. *)
Definition global_table : SymbolTable := mkSymbolTable 0 None.

Definition global_context : Context :=
  mkContext "<program>" None None global_table.

(** The store once the global environment is made. *)
Definition global_heap : Heap :=
  {| tables := <[0%nat := special_values]> ∅; next_cell := 1 |}.

(** [VAR x = 5] was run at top level: the global environment binds [x]. *)
Definition heap_with_x : Heap :=
  {| tables := <[0%nat := <["x" := Number 5]> special_values]> ∅;
     next_cell := 1 |}.

(** A function value [f] defined at top level, and its activation: the
    context and the store that [generate_new_context] makes for a call. *)
Definition function_value (body_node : Node) (should_auto_return : bool)
  : Value :=
  VFunction (Some "f") body_node [] should_auto_return (Some shell_span)
            (Some global_context).

Definition activation_table : SymbolTable :=
  mkSymbolTable 1 (Some global_table).

Definition activation_context : Context :=
  mkContext "f" (Some global_context) (Some shell_position) activation_table.

Definition activation_heap (h : Heap) : Heap :=
  {| tables := <[1%nat := special_values]> (tables h); next_cell := 2 |}.

(** Programs. *)
Definition number (z : Z) : Node := NumberNode shell_span z.

(** [1 / 0 + 1] *)
Definition failing_sum : Node :=
  BinOpNode shell_span (BinOpNode shell_span (number 1) TP_DIV (number 0))
            TP_PLUS (number 1).

(** [0 AND (VAR x = 5)] *)
Definition and_with_assignment : Node :=
  BinOpNode shell_span (number 0) KW_AND
            (VarAssignNode shell_span "x" (number 5)).


(** [FOR i = 0 TO 3 THEN i * i]: scenario 3 of the specification. *)
Definition squares_to_three : Node :=
  ForNode shell_span "i" (number 0) (number 3) None
          (BinOpNode shell_span (VarAccessNode shell_span "i") TP_MUL
                     (VarAccessNode shell_span "i")) false.

(** [i * i], the body of scenario 3. *)
Definition square_of_i : Node :=
  BinOpNode shell_span (VarAccessNode shell_span "i") TP_MUL
            (VarAccessNode shell_span "i").



(** [FOR i = 5 TO 0 STEP -2 THEN i] *)
Definition count_down : Node :=
  ForNode shell_span "i" (number 5) (number 0)
          (Some (UnaryOpNode shell_span U_MINUS (number 2)))
          (VarAccessNode shell_span "i") false.

(** [5 / (IF 0 THEN 1)] *)
Definition division_by_empty_if : Node :=
  BinOpNode shell_span (number 5) TP_DIV
            (IfNode shell_span [(number 0, number 1, false)] None).

(** A failure on the third line of a file, inside the activation of [f]. *)
Definition failure_position : Position :=
  {| idx := 20; ln := 2; col := 4; fn := "<stdin>"; ftxt := "FOR" |}.

Definition failure_in_call : ActiveRuntimeError :=
  new_ActiveRuntimeError "Division by zero" (Some failure_position)
                         (Some failure_position) (Some activation_context).

(** The activation of [f] binds [x] as well: it shadows the global [x]. *)
Definition heap_with_local_x : Heap :=
  {| tables := <[1%nat := <["x" := Number 9]> special_values]>
                 (tables heap_with_x);
     next_cell := 2 |}.

(** [VAR x = 1] *)
Definition assign_x : Node := VarAssignNode shell_span "x" (number 1).

(** [[1, 2]] *)
Definition list_of_two : Node := ListNode shell_span [number 1; number 2].

(** The cases of [IF 0 THEN 1 ELIF 1 THEN 2 ELIF 1 THEN 4], and the
    else-case of [... ELSE 3]. *)
Definition false_case : Node * Node * bool := (number 0, number 1, false).
Definition true_case : Node * Node * bool := (number 1, number 2, false).
Definition late_case : Node * Node * bool := (number 1, number 4, false).
Definition else_three : option (Node * bool) := Some (number 3, false).

(** The value of the literal [z] evaluated at top level. *)
Definition literal (z : Z) : Value :=
  VNumber z (Some shell_span) (Some global_context).

(** An error of a value without position, raised at top level. *)
Definition failure_without_position : ActiveRuntimeError :=
  new_ActiveRuntimeError "Illegal operation" None None (Some global_context).

(** * Properties *)

(** ** Environments *)

Lemma SymbolTable_chain_ind (P : SymbolTable -> Prop) :
  (forall c, P (mkSymbolTable c None)) ->
  (forall c p, P p -> P (mkSymbolTable c (Some p))) ->
  forall t, P t.
Proof.
  intros Hroot Hchild.
  fix IH 1. intros [c [p|]].
  - apply Hchild, IH.
  - apply Hroot.
Qed.

(** A name bound in the local dictionary to a value is found there. *)
Lemma get_local h t name v dflt :
  symbols h t !! name = Some v -> is_none v = false ->
  get h t name dflt = v.
Proof.
  destruct t as [c [p|]]; simpl; unfold dict_get; intros -> Hv; simpl.
  - by rewrite Hv.
  - done.
Qed.

(** A name that the local dictionary lacks is looked up in the parent. *)
Lemma get_parent h c p name :
  symbols h (mkSymbolTable c (Some p)) !! name = None ->
  get h (mkSymbolTable c (Some p)) name PyNone = get h p name PyNone.
Proof. simpl. unfold dict_get. by intros ->. Qed.

Lemma get_absent h t name :
  (forall s, s ∈ scope_chain t -> symbols h s !! name = None) ->
  get h t name PyNone = PyNone.
Proof.
  induction t as [c | c p IH] using SymbolTable_chain_ind; intros Habs.
  - simpl. unfold dict_get. rewrite (Habs (mkSymbolTable c None)); [done |].
    simpl. apply list_elem_of_here.
  - rewrite get_parent.
    + apply IH. intros s Hs. apply Habs. simpl. by apply list_elem_of_further.
    + apply Habs. simpl. apply list_elem_of_here.
Qed.

Lemma symbols_set_same t name v h :
  exists h', set t name v h = Ret tt h'
             /\ symbols h' t = <[name := v]> (symbols h t).
Proof.
  eexists. split; [reflexivity |].
  unfold symbols at 1. simpl. by rewrite lookup_insert_eq.
Qed.

Lemma symbols_set_other t name v h h' u :
  set t name v h = Ret tt h' -> cell u <> cell t ->
  symbols h' u = symbols h u.
Proof.
  unfold set. intros [= <-] Hne. unfold symbols. simpl.
  by rewrite lookup_insert_ne.
Qed.

(** C5, as the code has it: [get] answers [None] for a name that no scope of
    the chain binds, [set] always succeeds and writes the local dictionary,
    [remove] deletes a name that the local dictionary binds, and raises
    [KeyError] for a name that it does not bind. *)
Theorem symbol_table_operations (h : Heap) (t : SymbolTable) (name : string)
    (v : Value) :
  ((forall s, s ∈ scope_chain t -> symbols h s !! name = None) ->
   get h t name PyNone = PyNone)
  /\ (exists h', set t name v h = Ret tt h'
                 /\ symbols h' t !! name = Some v)
  /\ (forall old, symbols h t !! name = Some old ->
      exists h', remove t name h = Ret tt h'
                 /\ symbols h' t = delete name (symbols h t))
  /\ (symbols h t !! name = None -> remove t name h = Raise (KeyError name)).
Proof.
  split; [apply get_absent |].
  split.
  { destruct (symbols_set_same t name v h) as (h' & Hset & Hsym).
    exists h'. split; [done |]. rewrite Hsym. apply lookup_insert_eq. }
  split.
  - intros old Hold. unfold remove. rewrite Hold. eexists. split; [reflexivity |].
    unfold symbols at 1. simpl. by rewrite lookup_insert_eq.
  - intros Hnone. unfold remove. by rewrite Hnone.
Qed.

(** C5, the claim as stated fails: removing a name that the local scope does
    not bind raises [KeyError]. *)
Lemma remove_absent_name_fails :
  symbols global_heap global_table !! "x" = None
  /\ remove global_table "x" global_heap = Raise (KeyError "x")
  /\ ~ (exists h', remove global_table "x" global_heap = Ret tt h').
Proof.
  assert (Hrm : remove global_table "x" global_heap = Raise (KeyError "x"))
    by (vm_compute; reflexivity).
  split; [vm_compute; reflexivity |].
  split; [exact Hrm |].
  intros [h' Hh']. rewrite Hrm in Hh'. discriminate.
Qed.

Lemma symbol_table_operations_witness :
  get global_heap global_table "x" PyNone = PyNone
  /\ (exists h', remove global_table "TRUE" global_heap = Ret tt h'
                 /\ symbols h' global_table
                    = delete "TRUE" (symbols global_heap global_table))
  /\ remove global_table "x" global_heap = Raise (KeyError "x").
Proof.
  pose proof (symbol_table_operations global_heap global_table "x" (Number 7))
    as (Hget & _ & _ & Hrm).
  pose proof (symbol_table_operations global_heap global_table "TRUE" (Number 7))
    as (_ & _ & Hdel & _).
  split.
  - apply Hget. intros s Hs. simpl in Hs.
    apply list_elem_of_singleton in Hs. subst s. vm_compute. reflexivity.
  - split.
    + apply (Hdel (Number 1)). vm_compute. reflexivity.
    + apply Hrm. vm_compute. reflexivity.
Defined.

(** C8: a name bound in a scope [s] and not shadowed on the way is found by
    [get] from every descendant [d] of [s]; [set] for that name on [d]
    writes the dictionary of [d] alone, so the binding in [s] (and what
    [get] finds from [s]) stays as it was. *)
Theorem lookup_through_descendants (h : Heap) (s d : SymbolTable)
    (name : string) (v : Value) :
  symbols h s !! name = Some v -> is_none v = false ->
  unshadowed_descendant h name s d ->
  get h d name PyNone = v
  /\ forall w, exists h',
       set d name w h = Ret tt h'
       /\ symbols h' d !! name = Some w
       /\ symbols h' s = symbols h s
       /\ (forall u, cell u <> cell d -> symbols h' u = symbols h u)
       /\ get h' s name PyNone = v.
Proof.
  intros Hs Hv Hd. split.
  - induction Hd as [c Hc | c p Hc Hd IH].
    + rewrite get_parent by done. by apply get_local.
    + rewrite get_parent by done. exact IH.
  - intros w.
    assert (Hne : cell s <> cell d).
    { intros Heq.
      assert (Hdn : symbols h d !! name = None) by (destruct Hd; done).
      unfold symbols in Hs, Hdn. rewrite Heq in Hs. congruence. }
    destruct (symbols_set_same d name w h) as (h' & Hset & Hsym).
    exists h'. split; [done |].
    split; [rewrite Hsym; apply lookup_insert_eq |].
    assert (Hs' : symbols h' s = symbols h s)
      by (eapply symbols_set_other; eauto).
    split; [done |].
    split; [intros u Hu; eapply symbols_set_other; eauto |].
    apply get_local; [by rewrite Hs' | done].
Qed.

Lemma special_values_lookup :
  special_values !! "NULL" = Some (Number 0)
  /\ special_values !! "TRUE" = Some (Number 1)
  /\ special_values !! "FALSE" = Some (Number 0).
Proof. repeat split; vm_compute; reflexivity. Qed.

Lemma get_special h t :
  symbols h t = special_values ->
  get h t "NULL" PyNone = Number 0
  /\ get h t "TRUE" PyNone = Number 1
  /\ get h t "FALSE" PyNone = Number 0.
Proof.
  intros Hsym. destruct special_values_lookup as (Hn & Ht & Hf).
  repeat split; apply get_local; rewrite ?Hsym; done.
Qed.

(** C10: a freshly constructed [SymbolTable] binds NULL, TRUE and FALSE in
    its own dictionary, so a lookup of these names from the new scope is
    answered there whatever the ancestors bind, now or later; the
    environment of a function activation is such a fresh table. *)
Theorem fresh_scope_special_values (parent : option SymbolTable) (h : Heap) :
  (exists t h1,
     new_SymbolTable parent h = Ret t h1
     /\ symbols h1 t !! "NULL" = Some (Number 0)
     /\ symbols h1 t !! "TRUE" = Some (Number 1)
     /\ symbols h1 t !! "FALSE" = Some (Number 0)
     /\ forall h2, symbols h2 t = symbols h1 t ->
          get h2 t "NULL" PyNone = Number 0
          /\ get h2 t "TRUE" PyNone = Number 1
          /\ get h2 t "FALSE" PyNone = Number 0)
  /\ (forall self exec_context h1,
        generate_new_context self h = Ret exec_context h1 ->
        forall h2,
          symbols h2 (symbol_table exec_context)
          = symbols h1 (symbol_table exec_context) ->
          get h2 (symbol_table exec_context) "NULL" PyNone = Number 0
          /\ get h2 (symbol_table exec_context) "TRUE" PyNone = Number 1
          /\ get h2 (symbol_table exec_context) "FALSE" PyNone = Number 0).
Proof.
  assert (Hnew : forall p,
    symbols {| tables := <[next_cell h := special_values]> (tables h);
               next_cell := S (next_cell h) |}
            (mkSymbolTable (next_cell h) p) = special_values).
  { intros p. unfold symbols. simpl. by rewrite lookup_insert_eq. }
  destruct special_values_lookup as (Hn & Ht & Hf).
  split.
  - eexists _, _. split; [reflexivity |].
    rewrite !Hnew. do 3 (split; [done |]).
    intros h2 Hsame. by apply get_special.
  - intros self exec_context h1 Hgen h2 Hsame.
    apply get_special. rewrite Hsame.
    destruct self as [| | | | name body args auto pos [defining|]];
      try discriminate Hgen.
    unfold generate_new_context, bind, new_SymbolTable, ret in Hgen.
    injection Hgen as <- <-. apply Hnew.
Qed.

(** ** Tracebacks *)

Lemma Context_chain_ind (P : Context -> Prop) :
  (forall n e t, P (mkContext n None e t)) ->
  (forall n p e t, P p -> P (mkContext n (Some p) e t)) ->
  forall c, P c.
Proof.
  intros Hroot Hchild.
  fix IH 1. intros [n [p|] e t].
  - apply Hchild, IH.
  - apply Hroot.
Qed.

Lemma append_cons (x : ascii) (a b : string) :
  String x a +:+ b = String x (a +:+ b).
Proof. reflexivity. Qed.

Lemma append_assoc (a b c : string) : (a +:+ b) +:+ c = a +:+ (b +:+ c).
Proof.
  induction a as [| x a IH]; [done |].
  by rewrite !append_cons, IH.
Qed.

Lemma append_empty_r (a : string) : a +:+ EmptyString = a.
Proof.
  induction a as [| x a IH]; [done |].
  by rewrite append_cons, IH.
Qed.

Lemma traceback_lines_app (l1 l2 : list (Position * Context)) :
  traceback_lines (l1 ++ l2) = traceback_lines l1 +:+ traceback_lines l2.
Proof.
  induction l1 as [| [p c] l1 IH]; [done |].
  cbn [traceback_lines app]. by rewrite IH, append_assoc.
Qed.

(** The loop puts the frames of the chain in front of [result], outermost
    frame first. *)
Lemma traceback_loop_frames (context : Context) :
  forall (position : option Position) (result : string),
    traceback_loop result context position =
    match frame_list context position with
    | Some frames => inr (traceback_lines (rev frames) +:+ result)
    | None => inl AttributeError
    end.
Proof.
  induction context as [n e t | n p e t IH] using Context_chain_ind;
    intros [pos|] result; cbn [traceback_loop frame_list]; try done;
    rewrite Nat.add_1_r.
  - fold (frame_line pos (mkContext n None e t)).
    cbn [rev app traceback_lines]. by rewrite append_empty_r.
  - fold (frame_line pos (mkContext n (Some p) e t)).
    rewrite IH. destruct (frame_list p e) as [frames|]; [| done].
    f_equal. cbn [rev]. rewrite traceback_lines_app.
    cbn [traceback_lines]. by rewrite append_empty_r, append_assoc.
Qed.

Lemma frame_list_contexts (context : Context) :
  forall position frames,
    frame_list context position = Some frames ->
    map snd frames = context_chain context.
Proof.
  induction context as [n e t | n p e t IH] using Context_chain_ind;
    intros [pos|] frames; simpl; try done.
  - by intros [= <-].
  - destruct (frame_list p e) as [fs|] eqn:Hfs; [| done].
    intros [= <-]. simpl. f_equal. by eapply IH.
Qed.

(** The chain of a context starts at the context and ends at a context
    without parent, the root. *)
Lemma context_chain_ends (context : Context) :
  head (context_chain context) = Some context
  /\ exists root, last (context_chain context) = Some root
                  /\ parent_context root = None.
Proof.
  split; [by destruct context |].
  induction context as [n e t | n p e t IH] using Context_chain_ind.
  - by eexists.
  - destruct IH as (root & Hlast & Hroot). exists root.
    split; [| done]. cbn [context_chain]. by rewrite last_cons, Hlast.
Qed.

Lemma last_map {A B : Type} (f : A -> B) (l : list A) :
  last (map f l) = f <$> last l.
Proof.
  induction l as [| x l IH]; [done |].
  destruct l as [| y l]; [done |]. exact IH.
Qed.

(** The walk finds a frame for every context exactly when the failure has
    a position and every context with a parent has an entry position. *)
Lemma frame_list_missing (context : Context) :
  forall position,
    frame_list context position = None <->
    position = None
    \/ exists c, c ∈ context_chain context
                 /\ is_Some (parent_context c) /\ parent_entry_pos c = None.
Proof.
  induction context as [n e t | n p e t IH] using Context_chain_ind;
    intros [pos |]; cbn [frame_list context_chain].
  - split; [done |]. intros [? | (c & Hc & [q Hq] & _)]; [done |].
    apply list_elem_of_singleton in Hc. by subst c.
  - split; [by left | done].
  - destruct (frame_list p e) as [frames |] eqn:Hframes.
    + split; [done |]. intros [? | (c & Hc & Hparent & Hentry)]; [done |].
      apply elem_of_cons in Hc as [-> | Hc].
      * cbn in Hentry. subst e.
        assert (Hnone : frame_list p None = None) by by destruct p.
        congruence.
      * assert (frame_list p e = None); [| congruence].
        apply IH. right. by exists c.
    + split; [| done]. intros _. right.
      apply IH in Hframes as [-> | (c & Hc & Hparent & Hentry)].
      * exists (mkContext n (Some p) None t).
        split; [apply list_elem_of_here |]. by split; [eexists |].
      * exists c. split; [by apply list_elem_of_further | done].
  - split; [by left | done].
Qed.

(** C9, as the code has it: for an error with a context chain in which the
    failure has its position and every context with a parent has its entry
    position, the traceback is the header line followed by one line per
    context of the chain, each with the file, the line and the name of the
    context, for the frames met on the walk along the parent links from the
    failure site, in reverse order of the walk: the line of the root context
    comes first and the line of the innermost context, at the failure site,
    comes last. *)
Theorem traceback_root_first (self : ActiveRuntimeError) (context : Context)
    (position : Position) :
  err_context self = Some context ->
  start_pos self = Some position ->
  (forall c, c ∈ context_chain context ->
             is_Some (parent_context c) -> is_Some (parent_entry_pos c)) ->
  exists frames,
    frame_list context (Some position) = Some frames
    /\ generate_traceback self
       = inr (newline +:+ "Traceback (most recent call last):" +:+ newline
              +:+ traceback_lines (rev frames))
    /\ map snd frames = context_chain context
    /\ head frames = Some (position, context)
    /\ exists entry root,
         last frames = Some (entry, root) /\ parent_context root = None.
Proof.
  intros Hctx Hpos Hentries.
  destruct (frame_list context (Some position)) as [frames |] eqn:Hframes.
  - exists frames. split; [done |].
    pose proof (frame_list_contexts _ _ _ Hframes) as Hmap.
    split; [| split; [done |]; split].
    + unfold generate_traceback.
      rewrite Hctx, Hpos, traceback_loop_frames, Hframes.
      by rewrite append_empty_r.
    + destruct context as [n [pc |] e t]; cbn [frame_list] in Hframes.
      * destruct (frame_list pc e); [| done]. by injection Hframes as <-.
      * by injection Hframes as <-.
    + destruct (context_chain_ends context) as (_ & root & Hlast & Hroot).
      rewrite <- Hmap in Hlast. rewrite last_map in Hlast.
      destruct (last frames) as [[entry root'] |]; [| done].
      cbn in Hlast. injection Hlast as ->. by exists entry, root.
  - apply frame_list_missing in Hframes as [? | (c & Hc & Hparent & Hnone)];
      [done |].
    destruct (Hentries c Hc Hparent) as [entry Hentry]. congruence.
Qed.

(** C9, the claim as stated fails: the error of [5 / (IF 0 THEN 1)]
    carries the context of the program, and its traceback is not
    generated, [AttributeError] is raised instead: the divisor is the
    [Number(0)] that [visit_ifnode] builds, which has no position, so the
    error has no start position. *)
Lemma traceback_of_unpositioned_error_fails :
  exists error,
    visit (VS := int_value_system) 3 division_by_empty_if global_context
          global_heap
    = Ret (failure error) global_heap
    /\ err_context error = Some global_context
    /\ start_pos error = None
    /\ generate_traceback error = inl AttributeError.
Proof.
  eexists. split; [vm_compute; reflexivity |].
  split; [reflexivity |]. split; reflexivity.
Qed.

(** ** The evaluator *)

Section EvaluatorSteps.

Context `{VS : ValueSystem}.

(** [visit_binopnode] visits the left operand, then the right operand on the
    store the left one leaves, whatever the left one returned; only then
    does it look at the registered result. *)
Lemma visit_binopnode_steps fuel sp l op r ctx h :
  visit (S fuel) (BinOpNode sp l op r) ctx h =
  match visit fuel l ctx h with
  | Ret rl h1 =>
      match visit fuel r ctx h1 with
      | Ret rr h2 =>
          binop_dispatch sp op (rr_value rl) (rr_value rr)
                         (snd (register new_RuntimeResult rr)) h2
      | Raise e => Raise e
      | OutOfFuel => OutOfFuel
      end
  | Raise e => Raise e
  | OutOfFuel => OutOfFuel
  end.
Proof.
  cbn [visit]. unfold visit_binopnode, bind.
  destruct (visit fuel l ctx h) as [rl h1 | |]; [| done | done].
  cbn [register]. by destruct (visit fuel r ctx h1).
Qed.

End EvaluatorSteps.

Lemma should_return_register rr :
  should_return (snd (register new_RuntimeResult rr)) = should_return rr.
Proof. reflexivity. Qed.

Lemma should_return_signals value rr :
  should_return (mkResult value (rr_error rr) (func_return_value rr)
                          (loop_should_continue rr) (loop_should_break rr))
  = should_return rr.
Proof. reflexivity. Qed.

(** A method's [runtime_result] has no value before the method returns, so
    what was registered before is immaterial to a new registration. *)
Lemma register_forgets self inner :
  rr_value self = PyNone ->
  register self inner = register new_RuntimeResult inner.
Proof. destruct self. cbn. by intros ->. Qed.

(** Registering a result that has no value gives the result back. *)
Lemma register_signal rr :
  rr_value rr = PyNone -> snd (register new_RuntimeResult rr) = rr.
Proof. destruct rr. cbn. by intros ->. Qed.

(** Take one step through a run that is known to return: use what the
    equations say, else open the monad, else split on what the run
    inspects next. *)
Ltac run_step :=
  first
    [ progress simplify_eq
    | progress unfold ret, raise, bind in *
    | case_match ].

Ltac run := repeat run_step.

(** ** The discipline of control-flow results *)

Lemma set_position_is_none v sp : is_none (set_position v sp) = is_none v.
Proof. by destruct v. Qed.

Lemma set_context_is_none v ctx : is_none (set_context v ctx) = is_none v.
Proof. by destruct v. Qed.

Lemma disciplined_signal r :
  should_return r = true -> rr_value r = PyNone -> disciplined r.
Proof. unfold disciplined. by intros ->. Qed.

Lemma disciplined_success v : is_none v = false -> disciplined (success v).
Proof. done. Qed.

Lemma registered_disciplined r : registered_signal r -> disciplined r.
Proof. intros [Hs Hv]. by apply disciplined_signal. Qed.

Section ResultDiscipline.

Context `{VS : ValueSystem}.
Variable ev : Node -> Context -> M RuntimeResult.
Hypothesis ev_disciplined :
  forall node ctx h r h', ev node ctx h = Ret r h' -> disciplined r.

(** The value of a child that returned normally. *)
Lemma ev_normal_value node ctx h r h' :
  ev node ctx h = Ret r h' -> should_return r = false ->
  is_none (rr_value r) = false.
Proof.
  intros Hev Hn. apply ev_disciplined in Hev. unfold disciplined in Hev.
  by rewrite Hn in Hev.
Qed.

Lemma after_body_return cv rr elements again h r h' :
  rr_value rr = PyNone ->
  (forall els h0, again els h0 = Ret (LoopReturn r) h' -> registered_signal r) ->
  after_body cv rr elements again h = Ret (LoopReturn r) h' ->
  registered_signal r.
Proof.
  intros Hrr Hagain. unfold after_body. intros H.
  destruct (should_return rr) eqn:Hsig; cbn [andb] in H; run; eauto.
  by split.
Qed.

Lemma for_loop_return fuel condition step var body ctx :
  forall index elements h r h',
    for_loop ev fuel condition step var body ctx index elements h
    = Ret (LoopReturn r) h' -> registered_signal r.
Proof.
  induction fuel as [| fuel IH]; intros index elements h r h' H; [done |].
  cbn [for_loop] in H. destruct (condition index); [| by run].
  unfold bind in H. cbn [set] in H.
  destruct (py_add index step) as [next |]; [| done].
  destruct (ev body ctx _) as [inner h1 | |]; [| done | done].
  cbn [register] in H.
  eapply after_body_return in H; [done | done |].
  intros els h0. apply IH.
Qed.

Lemma for_iterations_return fuel var body ctx start_value end_value step_value
    h r h' :
  for_iterations ev fuel var body ctx start_value end_value step_value h
  = Ret (LoopReturn r) h' -> registered_signal r.
Proof.
  unfold for_iterations. intros H. run; by eapply for_loop_return.
Qed.

Lemma while_loop_return fuel condition body ctx :
  forall elements h r h',
    while_loop ev fuel condition body ctx elements h = Ret (LoopReturn r) h' ->
    registered_signal r.
Proof.
  induction fuel as [| fuel IH]; intros elements h r h' H; [done |].
  cbn [while_loop] in H. unfold bind in H.
  destruct (ev condition ctx h) as [inner h1 | |]; [| done | done].
  cbn [register] in H.
  destruct (should_return _) eqn:Hsig; [run; by split |].
  destruct (rr_value inner) eqn:Hv; [done | ..];
    (destruct (negb _); [by run |];
     destruct (ev body ctx h1) as [inner' h2 | |]; [| done | done];
     cbn [register] in H;
     eapply after_body_return in H; [done | done |];
     intros els h0; apply IH).
Qed.

Lemma visit_each_return nodes ctx :
  forall collected h r h',
    visit_each ev nodes ctx collected h = Ret (LoopReturn r) h' ->
    registered_signal r.
Proof.
  induction nodes as [| node nodes IH]; intros collected h r h' H;
    [cbn [visit_each] in H; by run |].
  cbn [visit_each] in H. unfold bind in H.
  destruct (ev node ctx h) as [inner h1 | |]; [| done | done].
  cbn [register] in H. destruct (should_return _) eqn:Hsig; [run; by split |].
  by eapply IH.
Qed.

Lemma visit_cases_return cases ctx :
  forall rr h,
    rr_value rr = PyNone ->
    match visit_cases ev cases ctx rr h with
    | Ret (inl r) h' => disciplined r
    | Ret (inr r) h' => rr_value r = PyNone
    | _ => True
    end.
Proof.
  induction cases as [| [[condition expr] null] cases IH];
    intros rr h Hrr; [done |].
  cbn [visit_cases]. unfold bind.
  destruct (ev condition ctx h) as [inner h1 | |] eqn:Hcond; [| done | done].
  cbn [register]. rewrite should_return_signals.
  destruct (should_return inner) eqn:Hsig.
  { cbn [ret]. apply disciplined_signal; [| done].
    by rewrite should_return_signals. }
  destruct (rr_value inner) eqn:Hv; [done | ..];
    (destruct (is_true _); [| by apply IH];
     unfold bind;
     destruct (ev expr ctx h1) as [inner' h2 | |] eqn:Hexpr; [| done | done];
     cbn [register]; rewrite should_return_signals;
     destruct (should_return inner') eqn:Hsig'; cbn [ret];
     [apply disciplined_signal; [by rewrite should_return_signals | done] |];
     apply disciplined_success; destruct null; [done |];
     by eapply ev_normal_value).
Qed.

(** Each method returns a disciplined result when its children do. *)
Lemma execute_disciplined self args h r h' :
  execute ev self args h = Ret r h' -> disciplined r.
Proof.
  unfold execute. intros H.
  destruct self as [| | | | name body arg_names auto pos defining];
    [done | run; by apply disciplined_signal ..|].
  unfold bind in H.
  destruct (generate_new_context _ h) as [exec_context h1 | |];
    [| done | done].
  destruct (check_and_populate_args _ _ _ _ h1) as [checked h2 | |];
    [| done | done].
  cbn [register] in H. rewrite should_return_signals in H.
  destruct (should_return checked) eqn:Hchecked.
  { run. apply disciplined_signal; [by rewrite should_return_signals | done]. }
  unfold bind in H.
  destruct (ev body exec_context h2) as [inner h3 | |] eqn:Hbody;
    [| done | done].
  cbn [register] in H. rewrite should_return_signals in H.
  cbn [func_return_value] in H.
  destruct (should_return inner && is_none (func_return_value inner))
    eqn:Hgo.
  { apply andb_prop in Hgo as [Hgo _]. run.
    apply disciplined_signal; [by rewrite should_return_signals | done]. }
  run; apply disciplined_success; unfold py_or;
    repeat (match goal with |- context [if ?b then _ else _] =>
              destruct b eqn:? end); done.
Qed.

End ResultDiscipline.

(** Every result that the evaluator returns is disciplined. *)
Lemma visit_disciplined `{VS : ValueSystem} fuel :
  forall node ctx h r h', visit fuel node ctx h = Ret r h' -> disciplined r.
Proof.
  induction fuel as [| fuel IH]; intros node ctx h r h' H; [done |].
  pose proof (ev_normal_value (visit fuel) IH) as Hvalue.
  destruct node; [| | | rewrite visit_binopnode_steps in H | ..];
    cbn [visit] in H.
  - unfold visit_numbernode in H. by run.
  - unfold visit_stringnode in H. by run.
  - unfold visit_listnode, bind in H.
    destruct (visit_each _ _ _ _ _) as [[rr | els] h1 | |] eqn:Heach;
      [| by run | done | done].
    run. by eapply registered_disciplined, visit_each_return.
  - destruct (visit fuel node1 ctx h) as [rl h1 | |] eqn:Hl; [| done | done].
    destruct (visit fuel node2 ctx h1) as [rr h2 | |]; [| done | done].
    cbn [register snd] in H. unfold binop_dispatch in H.
    rewrite should_return_signals in H.
    destruct (should_return rr) eqn:Hsig.
    { run. apply disciplined_signal; [by rewrite should_return_signals | done]. }
    run; try (by apply disciplined_signal);
      apply disciplined_success; by rewrite ?set_position_is_none.
  - unfold visit_unaryopnode, bind in H.
    destruct (visit fuel node ctx h) as [rr h1 | |]; [| done | done].
    cbn [register] in H. rewrite should_return_signals in H.
    destruct (should_return rr) eqn:Hsig.
    { run. apply disciplined_signal; [by rewrite should_return_signals | done]. }
    run; try (by apply disciplined_signal);
      apply disciplined_success; by rewrite ?set_position_is_none.
  - unfold visit_varaccessnode in H.
    run; apply disciplined_success;
      by rewrite ?set_context_is_none, ?set_position_is_none.
  - unfold visit_varassignnode, bind in H.
    destruct (visit fuel node ctx h) as [rr h1 | |] eqn:Hv; [| done | done].
    cbn [register] in H. rewrite should_return_signals in H.
    destruct (should_return rr) eqn:Hsig.
    { run. apply disciplined_signal; [by rewrite should_return_signals | done]. }
    cbn [set] in H. run. apply disciplined_success. by eapply Hvalue.
  - unfold visit_ifnode, bind in H.
    pose proof (visit_cases_return (visit fuel) IH cases ctx
                  new_RuntimeResult h eq_refl) as Hcases.
    destruct (visit_cases _ _ _ _ _) as [[returned | rr] h1 | |];
      [| | done | done].
    + by run.
    + destruct else_case as [[expr null] |]; [| by run].
      unfold bind in H.
      destruct (visit fuel expr ctx h1) as [inner h2 | |] eqn:He;
        [| done | done].
      cbn [register] in H. rewrite should_return_signals in H.
      destruct (should_return inner) eqn:Hsig.
      { run. apply disciplined_signal; [by rewrite should_return_signals | done]. }
      run; apply disciplined_success; [done | by eapply Hvalue].
  - unfold visit_fornode, bind in H.
    destruct (visit fuel node1 ctx h) as [r1 h1 | |]; [| done | done].
    cbn [register] in H. rewrite should_return_signals in H.
    destruct (should_return r1) eqn:Hsig1.
    { run. apply disciplined_signal; [by rewrite should_return_signals | done]. }
    destruct (visit fuel node2 ctx h1) as [r2 h2 | |]; [| done | done].
    cbn [register] in H. rewrite should_return_signals in H.
    destruct (should_return r2) eqn:Hsig2.
    { run. apply disciplined_signal; [by rewrite should_return_signals | done]. }
    destruct step_value_node as [step |].
    + unfold bind in H.
      destruct (visit fuel step ctx h2) as [r3 h3 | |]; [| done | done].
      cbn [register ret] in H. rewrite should_return_signals in H.
      destruct (should_return r3) eqn:Hsig3.
      { run. apply disciplined_signal; [by rewrite should_return_signals | done]. }
      destruct (for_iterations _ _ _ _ _ _ _ _ _) as [[rr | els] h4 | |]
        eqn:Hiter; [| | done | done].
      * run. by eapply registered_disciplined, for_iterations_return.
      * run. apply disciplined_success. unfold loop_value.
        by destruct should_return_null.
    + cbn [ret] in H. rewrite should_return_signals, Hsig2 in H.
      destruct (for_iterations _ _ _ _ _ _ _ _ _) as [[rr | els] h4 | |]
        eqn:Hiter; [| | done | done].
      * run. by eapply registered_disciplined, for_iterations_return.
      * run. apply disciplined_success. unfold loop_value.
        by destruct should_return_null.
  - unfold visit_whilenode, bind in H.
    destruct (while_loop _ _ _ _ _ _ _) as [[rr | els] h1 | |] eqn:Hloop;
      [| | done | done].
    + run. by eapply registered_disciplined, while_loop_return.
    + run. apply disciplined_success. unfold loop_value.
      by destruct should_return_null.
  - unfold visit_funcdefnode, bind in H.
    destruct var_name_token; cbn [set ret] in H; by run.
  - unfold visit_callnode, bind in H.
    destruct (visit fuel node ctx h) as [rc h1 | |]; [| done | done].
    cbn [register] in H. rewrite should_return_signals in H.
    destruct (should_return rc) eqn:Hsig.
    { run. apply disciplined_signal; [by rewrite should_return_signals | done]. }
    destruct (rr_value rc) eqn:Hcallee; [done | ..];
      (unfold bind in H;
       destruct (visit_each _ _ _ _ _) as [[rr | args] h2 | |] eqn:Hargs;
       [run; by eapply registered_disciplined, visit_each_return
       | | done | done];
       destruct (execute _ _ _ _) as [re h3 | |]; [| done | done];
       cbn [register] in H; rewrite should_return_signals in H;
       destruct (should_return re) eqn:Hsig';
       [run; apply disciplined_signal;
        [by rewrite should_return_signals | done] |];
       run; apply disciplined_success;
       by rewrite ?set_context_is_none, ?set_position_is_none).
  - unfold visit_returnnode in H.
    destruct node_to_return as [node |]; [| by run].
    unfold bind in H.
    destruct (visit fuel node ctx h) as [rv h1 | |] eqn:Hv; [| done | done].
    cbn [register] in H. rewrite should_return_signals in H.
    destruct (should_return rv) eqn:Hsig.
    { run. apply disciplined_signal; [by rewrite should_return_signals | done]. }
    run. pose proof (Hvalue _ _ _ _ _ Hv Hsig) as Hsome.
    unfold disciplined, should_return. cbn.
    by rewrite Hsome.
  - unfold visit_continuenode in H. by run.
  - unfold visit_breaknode in H. by run.
Qed.

(** ** Variable access and binary operations *)

Section EvaluatorProperties.

Context `{VS : ValueSystem}.

(** C1, what the code does: the failing result is built and dropped, and
    the access of a name that no scope of the chain binds ends in the
    [AttributeError] of [None.copy()]. *)
Theorem unbound_variable_access_raises (fuel : nat) (sp : Span)
    (var_name : string) (context : Context) (h : Heap) :
  (forall s, s ∈ scope_chain (symbol_table context) ->
             symbols h s !! var_name = None) ->
  visit (S fuel) (VarAccessNode sp var_name) context h = Raise AttributeError.
Proof.
  intros Habsent. cbn [visit]. unfold visit_varaccessnode.
  by rewrite (get_absent _ _ _ Habsent).
Qed.

(** C3, what the code does: when the left operand returns an error or a
    control-flow signal, the right operand is visited all the same, and its
    registration overwrites what the left one left: the method returns the
    result of the right operand when that is an error or a signal, and
    calls the operation on [None] when it is a normal value.  The result of
    the left operand is lost either way. *)
Theorem binop_left_signal_is_overwritten (fuel : nat) (sp : Span)
    (l r : Node) (op : BinOperator) (context : Context) (h h1 : Heap)
    (rl : RuntimeResult) :
  visit fuel l context h = Ret rl h1 ->
  should_return rl = true ->
  visit (S fuel) (BinOpNode sp l op r) context h =
  match visit fuel r context h1 with
  | Ret rr h2 =>
      if should_return rr then Ret rr h2 else Raise AttributeError
  | Raise e => Raise e
  | OutOfFuel => OutOfFuel
  end.
Proof.
  intros Hl Hsig. rewrite visit_binopnode_steps, Hl.
  pose proof (visit_disciplined _ _ _ _ _ _ Hl) as Hdl.
  unfold disciplined in Hdl. rewrite Hsig in Hdl.
  destruct (visit fuel r context h1) as [rr h2 | |] eqn:Hr; [| done | done].
  pose proof (visit_disciplined _ _ _ _ _ _ Hr) as Hdr.
  unfold disciplined in Hdr.
  unfold binop_dispatch. rewrite should_return_register, Hdl.
  destruct (should_return rr); [| done].
  by rewrite register_signal.
Qed.

(** C4: for the keywords AND and OR, the right operand is visited on the
    store left by the left operand whatever the left operand returned, and
    the logical operation is applied afterwards, to both values. *)
Theorem logical_operators_visit_both_operands (fuel : nat) (sp : Span)
    (l r : Node) (op : BinOperator) (context : Context) (h h1 : Heap)
    (rl : RuntimeResult) :
  op = KW_AND \/ op = KW_OR ->
  visit fuel l context h = Ret rl h1 ->
  visit (S fuel) (BinOpNode sp l op r) context h =
    match visit fuel r context h1 with
    | Ret rr h2 =>
        binop_dispatch sp op (rr_value rl) (rr_value rr)
                       (snd (register new_RuntimeResult rr)) h2
    | Raise e => Raise e
    | OutOfFuel => OutOfFuel
    end
  /\ forall rr h2,
       visit fuel r context h1 = Ret rr h2 ->
       should_return rl = false -> should_return rr = false ->
       visit (S fuel) (BinOpNode sp l op r) context h =
       match binary_operation op (rr_value rl) (rr_value rr) with
       | OpError error => Ret (failure error) h2
       | OpOk PyNone => Raise AttributeError
       | OpOk result => Ret (success (set_position result sp)) h2
       end.
Proof.
  intros _ Hl. split.
  - by rewrite visit_binopnode_steps, Hl.
  - intros rr h2 Hr Hnl Hnr.
    rewrite visit_binopnode_steps, Hl, Hr.
    pose proof (visit_disciplined _ _ _ _ _ _ Hl) as Hdl.
    unfold disciplined in Hdl. rewrite Hnl in Hdl.
    unfold binop_dispatch. rewrite should_return_register, Hnr.
    destruct (rr_value rl); [done | ..];
      by destruct (binary_operation op _ (rr_value rr)) as [[]|].
Qed.

End EvaluatorProperties.

(** ** Function invocation *)

Section ExecuteProperties.

Context `{VS : ValueSystem}.

Lemma populate_args_returns arg_names exec_context :
  forall args h, exists h', populate_args arg_names args exec_context h = Ret tt h'.
Proof.
  induction arg_names as [| a arg_names IH]; intros [| v args] h;
    try (eexists; reflexivity).
  cbn [populate_args]. unfold bind. cbn [set]. apply IH.
Qed.

(** When the arity matches, the arguments are bound and the check is a
    normal result. *)
Lemma check_and_populate_args_ok self arg_names args exec_context h :
  length args = length arg_names ->
  exists h', check_and_populate_args self arg_names args exec_context h
             = Ret (success PyNone) h'.
Proof.
  intros Hlen. unfold check_and_populate_args. rewrite Hlen.
  rewrite Nat.ltb_irrefl.
  destruct (populate_args_returns arg_names exec_context args h) as [h' Hp].
  exists h'. unfold bind. by rewrite Hp.
Qed.

(** C2, as the code has it.  For a call that reaches the body (the
    arguments match the parameters) and whose body evaluation returns
    without error: a [success_return] result makes the call succeed with the
    carried value, whatever the auto-return flag; a [break] or [continue]
    result is handed on as it is; a normal result makes the call succeed
    with the body's value when auto-return is set and with [Number(0)] when
    it is not. *)
Theorem function_execute_result (fuel : nat) (name : option string)
    (body_node : Node) (arg_names : list string) (should_auto_return : bool)
    (pos : option Span) (defining : option Context) (args : list Value)
    (h h1 h2 h3 : Heap) (exec_context : Context)
    (checked inner : RuntimeResult) :
  let self := VFunction name body_node arg_names should_auto_return pos
                        defining in
  generate_new_context self h = Ret exec_context h1 ->
  check_and_populate_args self arg_names args exec_context h1
  = Ret checked h2 ->
  should_return checked = false ->
  visit fuel body_node exec_context h2 = Ret inner h3 ->
  rr_error inner = None ->
  Function_execute fuel self args h =
  Ret (if negb (is_none (func_return_value inner))
       then success (func_return_value inner)
       else if loop_should_continue inner || loop_should_break inner
            then inner
            else success (if should_auto_return then rr_value inner
                          else Number 0))
      h3.
Proof.
  intros self Hgen Hcheck Hok Hbody Herr.
  unfold Function_execute, execute, self, bind. fold self.
  rewrite Hgen, Hcheck. cbn [register].
  rewrite should_return_signals, Hok, Hbody. cbn [register].
  rewrite should_return_signals. cbn [func_return_value].
  pose proof (visit_disciplined _ _ _ _ _ _ Hbody) as Hd.
  unfold disciplined in Hd. unfold should_return in *. rewrite Herr in *.
  cbn [orb] in *.
  destruct (func_return_value inner) eqn:Hret; cbn [is_none negb orb andb] in *.
  - rewrite andb_true_r.
    destruct (loop_should_continue inner || loop_should_break inner) eqn:Hsig.
    + unfold ret. f_equal. destruct inner. cbn in *. by subst.
    + unfold ret, py_or. destruct should_auto_return; [| done].
      rewrite Hd. cbn iota. by rewrite Hd.
  - rewrite Hd. by destruct should_auto_return.
  - rewrite Hd. by destruct should_auto_return.
  - rewrite Hd. by destruct should_auto_return.
  - rewrite Hd. by destruct should_auto_return.
Qed.

End ExecuteProperties.

(** C2, the claim as stated fails: the body [BREAK] returns without error
    and without a return value, the function is not auto-returning, and the
    call is not a success with [Number(0)]: the break signal leaves the
    function. *)
Lemma break_leaves_function_call :
  let self := function_value (BreakNode shell_span) false in
  visit (VS := int_value_system) 1 (BreakNode shell_span) activation_context
        (activation_heap global_heap)
  = Ret success_break (activation_heap global_heap)
  /\ rr_error success_break = None
  /\ func_return_value success_break = PyNone
  /\ Function_execute (VS := int_value_system) 1 self [] global_heap
     = Ret success_break (activation_heap global_heap)
  /\ success_break <> success (Number 0).
Proof.
  intros self.
  split; [reflexivity |].
  split; [reflexivity |].
  split; [reflexivity |].
  split; [reflexivity |].
  discriminate.
Qed.

(** ** The for-loop *)

Lemma ceil_div_step (a k : Z) :
  k <> 0 -> ceil_div (a - k) k = ceil_div a k - 1.
Proof.
  intros Hk. unfold ceil_div.
  replace (- (a - k)) with (- a + 1 * k) by lia.
  rewrite Z.div_add by done. lia.
Qed.

Lemma ceil_div_positive (a k : Z) :
  (0 < k /\ 0 < a) \/ (k < 0 /\ a < 0) -> 0 < ceil_div a k.
Proof.
  unfold ceil_div. intros [[Hk Ha] | [Hk Ha]].
  - pose proof (Z.div_lt_upper_bound (- a) k 0 Hk). lia.
  - rewrite <- (Z.opp_involutive k) at 1. rewrite Z.div_opp_opp by lia.
    pose proof (Z.div_lt_upper_bound a (- k) 0). lia.
Qed.



(** On [int]s the condition of the loop is the comparison of integers. *)
Lemma for_condition_int (k e s : Z) :
  for_condition k e s = if 0 <=? k then s <? e else s >? e.
Proof.
  unfold for_condition, py_ge, py_lt, py_gt. cbn [py_compare].
  unfold Z.leb, Z.ltb, Z.gtb. rewrite (Z.compare_antisym k 0).
  destruct (k ?= 0); cbn [CompOpp py_compare]; by destruct (s ?= e).
Qed.

(** While the condition of the loop holds there is one more iteration to
    count; when it fails there is none. *)
Lemma iteration_count_step (s e k : Z) :
  k <> 0 -> for_condition k e s = true ->
  iteration_count s e k = S (iteration_count (s + k) e k).
Proof.
  intros Hk Hcond. unfold iteration_count.
  replace (e - (s + k)) with ((e - s) - k) by lia.
  rewrite ceil_div_step by done.
  assert (0 < ceil_div (e - s) k).
  { apply ceil_div_positive. rewrite for_condition_int in Hcond.
    destruct (0 <=? k) eqn:Hsign; lia. }
  lia.
Qed.



Section LoopProperties.

Context `{VS : ValueSystem}.
Variable ev : Node -> Context -> M RuntimeResult.








End LoopProperties.

(** ** The properties on concrete runs *)

Lemma global_scope_lacks_x :
  forall s, s ∈ scope_chain (symbol_table global_context) ->
            symbols global_heap s !! "x" = None.
Proof.
  intros s Hs. apply list_elem_of_singleton in Hs. subst s.
  vm_compute. reflexivity.
Defined.

(** [x] at top level, where nothing binds it. *)
Lemma unbound_variable_access_raises_witness :
  visit (VS := int_value_system) 1 (VarAccessNode shell_span "x")
        global_context global_heap
  = Raise AttributeError.
Proof.
  apply (unbound_variable_access_raises (VS := int_value_system)).
  exact global_scope_lacks_x.
Defined.

(** [1 / 0 + 1]: the division fails, the right operand is visited all the
    same, and the addition is called on [None]. *)
Lemma binop_left_signal_is_overwritten_witness :
  (exists rl,
     visit (VS := int_value_system) 2
           (BinOpNode shell_span (number 1) TP_DIV (number 0))
           global_context global_heap = Ret rl global_heap
     /\ should_return rl = true)
  /\ visit (VS := int_value_system) 3 failing_sum global_context global_heap
     = Raise AttributeError.
Proof.
  split.
  - eexists. split; [vm_compute; reflexivity | reflexivity].
  - unfold failing_sum.
    erewrite (binop_left_signal_is_overwritten (VS := int_value_system) 2).
    + reflexivity.
    + vm_compute. reflexivity.
    + reflexivity.
Defined.

(** [0 AND (VAR x = 5)]: the left operand decides the result, and [x] is
    bound all the same. *)
Lemma logical_operators_visit_both_operands_witness :
  exists r h2,
    visit (VS := int_value_system) 3 and_with_assignment global_context
          global_heap = Ret r h2
    /\ attr_value (rr_value r) = Some (PyNum 0)
    /\ attr_value (get h2 global_table "x" PyNone) = Some (PyNum 5).
Proof.
  unfold and_with_assignment.
  destruct (logical_operators_visit_both_operands (VS := int_value_system)
              2 shell_span (number 0)
              (VarAssignNode shell_span "x" (number 5)) KW_AND
              global_context global_heap global_heap
              (success (VNumber 0 (Some shell_span) (Some global_context)))
              (or_introl eq_refl) eq_refl) as [Hsteps _].
  rewrite Hsteps. eexists _, _.
  split; [vm_compute; reflexivity |].
  split; vm_compute; reflexivity.
Defined.

(** [FUN f() -> 7], called: the call succeeds with the body's value. *)
Lemma function_execute_result_witness :
  Function_execute (VS := int_value_system) 1
                   (function_value (number 7) true) [] global_heap
  = Ret (success (VNumber 7 (Some shell_span) (Some activation_context)))
        (activation_heap global_heap).
Proof.
  exact (function_execute_result (VS := int_value_system) 1
           (Some "f") (number 7) [] true (Some shell_span)
           (Some global_context) [] global_heap
           (activation_heap global_heap) (activation_heap global_heap)
           (activation_heap global_heap) activation_context (success PyNone)
           (success (VNumber 7 (Some shell_span) (Some activation_context)))
           eq_refl eq_refl eq_refl eq_refl eq_refl).
Defined.

(** The body [i * i] on a store in which the loop has bound [i] at top
    level. *)
Lemma square_of_i_returns (index : Z) (h0 h0' : Heap) :
  set global_table "i" (Number index) h0 = Ret tt h0' ->
  visit (VS := int_value_system) 2 square_of_i global_context h0'
  = Ret (success (VNumber (index * index) (Some shell_span)
                          (Some global_context))) h0'.
Proof.
  intros Hset.
  assert (Hget : get h0' global_table "i" PyNone = Number index).
  { destruct (symbols_set_same global_table "i" (Number index) h0)
      as (h & Hh & Hsym).
    rewrite Hset in Hh. injection Hh as <-.
    apply get_local; [| done]. rewrite Hsym. apply lookup_insert_eq. }
  unfold square_of_i. rewrite visit_binopnode_steps.
  cbn [visit]. unfold visit_varaccessnode.
  change (symbol_table global_context) with global_table.
  rewrite Hget. cbn [Number]. rewrite Hget. reflexivity.
Qed.





(** Scenario 3 of the specification: [FOR i = 0 TO 3 THEN i * i] is the
    list of 0, 1 and 4. *)
Example squares_to_three_value :
  exists elements p c h',
    visit (VS := int_value_system) 6 squares_to_three global_context
          global_heap
    = Ret (success (VList elements p c)) h'
    /\ map attr_value elements
       = [Some (PyNum 0); Some (PyNum 1); Some (PyNum 4)].
Proof.
  eexists _, _, _, _. split; vm_compute; reflexivity.
Qed.

(** A negative step: [FOR i = 5 TO 0 STEP -2 THEN i] is the list of 5, 3
    and 1, and [ceil((0 - 5) / -2)] is 3. *)
Example count_down_value :
  iteration_count 5 0 (-2) = 3%nat
  /\ exists elements p c h',
       visit (VS := int_value_system) 6 count_down global_context global_heap
       = Ret (success (VList elements p c)) h'
       /\ map attr_value elements
          = [Some (PyNum 5); Some (PyNum 3); Some (PyNum 1)].
Proof.
  split; [reflexivity |].
  eexists _, _, _, _. split; vm_compute; reflexivity.
Qed.

(** [x] is bound at top level and read from the activation of [f]. *)
Lemma lookup_through_descendants_witness :
  get (activation_heap heap_with_x) activation_table "x" PyNone = Number 5
  /\ exists h',
       set activation_table "x" (Number 9) (activation_heap heap_with_x)
       = Ret tt h'
       /\ get h' global_table "x" PyNone = Number 5.
Proof.
  assert (Hglobal : symbols (activation_heap heap_with_x) global_table !! "x"
                    = Some (Number 5)) by (vm_compute; reflexivity).
  assert (Hlocal : symbols (activation_heap heap_with_x)
                           (mkSymbolTable 1 (Some global_table)) !! "x"
                   = None) by (vm_compute; reflexivity).
  destruct (lookup_through_descendants (activation_heap heap_with_x)
              global_table activation_table "x" (Number 5) Hglobal eq_refl
              (unshadowed_child _ _ _ 1%nat Hlocal)) as [Hget Hset].
  split; [exact Hget |].
  destruct (Hset (Number 9)) as (h' & Hh' & _ & _ & _ & Hafter).
  exists h'. by split.
Defined.

(** The traceback of a failure on line 3, inside a call of [f] made on line
    1 of the program: the line of the program first, the line of [f] last. *)
Lemma traceback_root_first_witness :
  generate_traceback failure_in_call
  = inr (newline +:+ "Traceback (most recent call last):" +:+ newline
         +:+ "File <stdin>, line 1, in <program>" +:+ newline
         +:+ "File <stdin>, line 3, in f" +:+ newline).
Proof.
  destruct (traceback_root_first failure_in_call activation_context
              failure_position eq_refl eq_refl)
    as (frames & Hframes & Htrace & _).
  - intros c Hc Hparent. apply elem_of_cons in Hc as [-> | Hc]; [by eexists |].
    apply list_elem_of_singleton in Hc. subst c.
    by destruct Hparent.
  - injection Hframes as <-. exact Htrace.
Defined.

(** A scope made after TRUE was rebound at top level still reads 1. *)
Lemma fresh_scope_special_values_witness :
  exists t h1 h2,
    new_SymbolTable (Some global_table) global_heap = Ret t h1
    /\ set global_table "TRUE" (Number 0) h1 = Ret tt h2
    /\ get h2 global_table "TRUE" PyNone = Number 0
    /\ get h2 t "TRUE" PyNone = Number 1.
Proof.
  destruct (fresh_scope_special_values (Some global_table) global_heap)
    as [(t & h1 & Hnew & _ & _ & _ & Hlater) _].
  destruct (symbols_set_same global_table "TRUE" (Number 0) h1)
    as (h2 & Hset & Hsym).
  exists t, h1, h2.
  split; [exact Hnew |]. split; [exact Hset |].
  injection Hnew as <- <-.
  split.
  - apply get_local; [| done]. rewrite Hsym. apply lookup_insert_eq.
  - apply Hlater. eapply symbols_set_other; [exact Hset | discriminate].
Defined.

(** * Further properties of the code *)

(** ** [SymbolTable]: how [get], [set] and [remove] compose *)

Lemma symbols_set_lookup t name v h h' u name' :
  set t name v h = Ret tt h' -> name' <> name ->
  symbols h' u !! name' = symbols h u !! name'.
Proof.
  intros Hset Hne. destruct (decide (cell u = cell t)) as [Heq | Hcell].
  - unfold set in Hset. injection Hset as <-. unfold symbols. cbn.
    rewrite Heq, lookup_insert_eq. cbn. by rewrite lookup_insert_ne.
  - by rewrite (symbols_set_other _ _ _ _ _ _ Hset Hcell).
Qed.

Lemma get_ext h h' name dflt :
  forall t,
    (forall s, s ∈ scope_chain t -> symbols h' s !! name = symbols h s !! name) ->
    get h' t name dflt = get h t name dflt.
Proof.
  induction t as [c | c p IH] using SymbolTable_chain_ind; intros Hsame.
  - cbn [get]. unfold dict_get. rewrite Hsame; [done |].
    cbn. apply list_elem_of_here.
  - cbn [get]. unfold dict_get. rewrite Hsame by (cbn; apply list_elem_of_here).
    rewrite IH; [done |]. intros s Hs. apply Hsame. cbn.
    by apply list_elem_of_further.
Qed.

(** X1: what [set] binds, [get] finds: after [set(name, value)] on a table,
    [get(name)] on that table answers the value, whatever the ancestors or
    the default are; a second [set] for the name replaces the first. *)
Theorem set_then_get (h : Heap) (t : SymbolTable) (name : string)
    (v w dflt : Value) :
  is_none v = false -> is_none w = false ->
  exists h1 h2,
    set t name v h = Ret tt h1
    /\ get h1 t name dflt = v
    /\ set t name w h1 = Ret tt h2
    /\ get h2 t name dflt = w
    /\ symbols h2 t = <[name := w]> (symbols h t).
Proof.
  intros Hv Hw.
  destruct (symbols_set_same t name v h) as (h1 & Hset1 & Hsym1).
  destruct (symbols_set_same t name w h1) as (h2 & Hset2 & Hsym2).
  exists h1, h2. split; [done |].
  split; [apply get_local; [rewrite Hsym1; apply lookup_insert_eq | done] |].
  split; [done |].
  split; [apply get_local; [rewrite Hsym2; apply lookup_insert_eq | done] |].
  by rewrite Hsym2, Hsym1, insert_insert_eq.
Qed.

(** X2: [set] for one name leaves every other name alone: what [get]
    answers for another name is the same before and after, from every
    scope and with every default. *)
Theorem set_keeps_other_names (h h' : Heap) (t u : SymbolTable)
    (name name' : string) (v dflt : Value) :
  set t name v h = Ret tt h' -> name' <> name ->
  get h' u name' dflt = get h u name' dflt.
Proof.
  intros Hset Hne. apply get_ext. intros s _.
  by eapply symbols_set_lookup.
Qed.

(** X3: [remove] undoes [set].  When the table does not bind the name,
    [set] followed by [remove] succeeds and leaves every dictionary, hence
    every lookup, as it was. *)
Theorem set_then_remove (h : Heap) (t : SymbolTable) (name : string)
    (v : Value) :
  symbols h t !! name = None ->
  exists h1 h2,
    set t name v h = Ret tt h1
    /\ remove t name h1 = Ret tt h2
    /\ (forall u, symbols h2 u = symbols h u)
    /\ forall u name' dflt, get h2 u name' dflt = get h u name' dflt.
Proof.
  intros Hfree.
  destruct (symbols_set_same t name v h) as (h1 & Hset & Hsym1).
  assert (Hbound : symbols h1 t !! name = Some v)
    by (rewrite Hsym1; apply lookup_insert_eq).
  assert (Hsyms : forall u,
    symbols {| tables := <[cell t := delete name (symbols h1 t)]> (tables h1);
               next_cell := next_cell h1 |} u = symbols h u).
  { intros u. destruct (decide (cell u = cell t)) as [Heq | Hcell].
    - unfold symbols at 1. cbn. rewrite Heq, lookup_insert_eq. cbn.
      rewrite Hsym1, delete_insert_eq. unfold symbols. rewrite Heq.
      apply delete_id. exact Hfree.
    - unfold symbols at 1. cbn. rewrite lookup_insert_ne by done.
      change (symbols h1 u = symbols h u).
      by eapply symbols_set_other. }
  eexists h1, _. split; [done |].
  split; [unfold remove; by rewrite Hbound |].
  split; [exact Hsyms |].
  intros u name' dflt. apply get_ext. intros s _. by rewrite Hsyms.
Qed.

(** X4: [remove] uncovers the ancestors.  After a name bound in a table is
    removed from it, [get] on that table answers what [get] on the parent
    answers (and [None] on a table without parent), provided the parent is
    another object than the table. *)
Theorem remove_uncovers_parent (h : Heap) (c : nat)
    (p : option SymbolTable) (name : string) (old : Value) :
  symbols h (mkSymbolTable c p) !! name = Some old ->
  (forall q, p = Some q -> forall s, s ∈ scope_chain q -> cell s <> c) ->
  exists h',
    remove (mkSymbolTable c p) name h = Ret tt h'
    /\ get h' (mkSymbolTable c p) name PyNone
       = match p with
         | Some q => get h q name PyNone
         | None => PyNone
         end.
Proof.
  intros Hold Hfresh. unfold remove. rewrite Hold. eexists. split; [done |].
  set (h' := {| tables := _; next_cell := _ |}).
  assert (Hlocal : symbols h' (mkSymbolTable c p) !! name = None).
  { unfold symbols, h'. cbn. rewrite lookup_insert_eq. cbn.
    apply lookup_delete_eq. }
  destruct p as [q |].
  - rewrite get_parent by exact Hlocal. apply get_ext. intros s Hs.
    unfold symbols, h'. cbn. rewrite lookup_insert_ne; [done |].
    intros Heq. by eapply Hfresh.
  - cbn [get]. unfold dict_get. by rewrite Hlocal.
Qed.

(** X5: [get] answers the nearest binding.  With the default [None], a
    value is what [get] answers exactly when some scope of the chain binds
    the name to it and no nearer scope binds the name to a value. *)
Theorem get_finds_nearest_binding (h : Heap) (t : SymbolTable)
    (name : string) (v : Value) :
  is_none v = false ->
  get h t name PyNone = v <->
  exists nearer s further,
    scope_chain t = (nearer ++ s :: further)%list
    /\ symbols h s !! name = Some v
    /\ forall u, u ∈ nearer -> dict_get (symbols h u) name PyNone = PyNone.
Proof.
  intros Hv.
  assert (Hnear : get h t name PyNone = nearest_binding h (scope_chain t) name).
  { induction t as [c | c p IH] using SymbolTable_chain_ind.
    - cbn [get scope_chain nearest_binding].
      by destruct (dict_get _ name PyNone).
    - cbn [get scope_chain nearest_binding]. by rewrite IH. }
  rewrite Hnear. clear Hnear. generalize (scope_chain t). intros chain.
  induction chain as [| s chain IH].
  - cbn. split; [intros <-; done |].
    intros (nearer & s & further & Happ & _). by destruct nearer.
  - cbn [nearest_binding].
    destruct (is_none (dict_get (symbols h s) name PyNone)) eqn:Hs.
    + rewrite IH. split.
      * intros (nearer & s' & further & -> & Hb & Hnone).
        exists (s :: nearer), s', further. split; [done |]. split; [done |].
        intros u [-> | Hu]%elem_of_cons; [| by apply Hnone].
        by destruct (dict_get (symbols h s) name PyNone).
      * intros (nearer & s' & further & Happ & Hb & Hnone).
        destruct nearer as [| u nearer]; cbn in Happ; simplify_eq.
        -- unfold dict_get in Hs. rewrite Hb in Hs. cbn in Hs. congruence.
        -- exists nearer, s', further. split; [done |]. split; [done |].
           intros u' Hu'. apply Hnone. by apply list_elem_of_further.
    + split.
      * intros Hget. exists [], s, chain. split; [done |].
        split; [| intros u Hu; by apply elem_of_nil in Hu].
        unfold dict_get in Hget, Hs.
        destruct (symbols h s !! name) as [x |]; cbn in *; by subst.
      * intros (nearer & s' & further & Happ & Hb & Hnone).
        destruct nearer as [| u nearer]; cbn in Happ; simplify_eq.
        -- unfold dict_get. by rewrite Hb.
        -- rewrite (Hnone u) in Hs; [done | apply list_elem_of_here].
Qed.

(** X6: a default that is not [None] keeps [get] in the local table.  When
    the table does not bind the name, [get(name, default)] answers the
    default at once and does not look at the ancestors, whatever they
    bind. *)
Theorem get_with_default_stays_local (h : Heap) (t : SymbolTable)
    (name : string) (dflt : Value) :
  is_none dflt = false ->
  symbols h t !! name = None ->
  get h t name dflt = dflt.
Proof.
  intros Hd Hfree. destruct t as [c [p |]]; cbn [get]; unfold dict_get;
    rewrite Hfree; cbn; by rewrite ?Hd.
Qed.

(** ** The evaluator writes to the environment of its context only *)

Lemma keeps_refl own h : keeps_other_tables own h h.
Proof. by split. Qed.

Lemma keeps_trans own h1 h2 h3 :
  keeps_other_tables own h1 h2 -> keeps_other_tables own h2 h3 ->
  keeps_other_tables own h1 h3.
Proof.
  intros [Hn1 Hk1] [Hn2 Hk2]. split; [lia |].
  intros c Hc Hown. rewrite Hk2 by (done || lia). by apply Hk1.
Qed.

Lemma set_keeps t name v h h' :
  set t name v h = Ret tt h' -> keeps_other_tables (cell t) h h'.
Proof.
  unfold set. intros [= <-]. split; [done |].
  intros c _ Hc. cbn. by rewrite lookup_insert_ne.
Qed.

(** Put the steps of a run together. *)
Ltac chain_steps :=
  repeat first
    [ exact (keeps_refl _ _)
    | eassumption
    | eapply keeps_trans; [eassumption |] ].

Section Isolation.

Context `{VS : ValueSystem}.
Variable ev : Node -> Context -> M RuntimeResult.
Hypothesis ev_keeps :
  forall node ctx h r h',
    ev node ctx h = Ret r h' ->
    keeps_other_tables (cell (symbol_table ctx)) h h'.

Ltac steps :=
  repeat match goal with
    | E : ev _ _ _ = Ret _ _ |- _ => apply ev_keeps in E
    | E : set _ _ _ _ = Ret _ _ |- _ => apply set_keeps in E
    end;
  chain_steps.

Lemma after_body_keeps own cv rr elements again h x h' :
  (forall els h0 y h1, again els h0 = Ret y h1 -> keeps_other_tables own h0 h1) ->
  after_body cv rr elements again h = Ret x h' ->
  keeps_other_tables own h h'.
Proof.
  intros Hagain. unfold after_body. intros H.
  repeat case_match; unfold ret in *; simplify_eq; eauto using keeps_refl.
Qed.

Lemma for_loop_keeps fuel condition step var body ctx :
  forall index elements h x h',
    for_loop ev fuel condition step var body ctx index elements h = Ret x h' ->
    keeps_other_tables (cell (symbol_table ctx)) h h'.
Proof.
  induction fuel as [| fuel IH]; intros index elements h x h' H; [done |].
  cbn [for_loop] in H. destruct (condition index); [| run; steps].
  unfold bind in H.
  destruct (set _ _ _ h) as [[] h0 | |] eqn:Hset; [| done | done].
  destruct (py_add index step) as [next |]; [| done].
  destruct (ev body ctx h0) as [inner h1 | |] eqn:Hbody; [| done | done].
  cbn [register] in H. eapply after_body_keeps in H; [| intros; by eapply IH].
  steps.
Qed.

Lemma for_iterations_keeps fuel var body ctx start_value end_value step_value
    h x h' :
  for_iterations ev fuel var body ctx start_value end_value step_value h
  = Ret x h' ->
  keeps_other_tables (cell (symbol_table ctx)) h h'.
Proof.
  unfold for_iterations. intros H.
  run; first [by eapply for_loop_keeps | steps].
Qed.

Lemma while_loop_keeps fuel condition body ctx :
  forall elements h x h',
    while_loop ev fuel condition body ctx elements h = Ret x h' ->
    keeps_other_tables (cell (symbol_table ctx)) h h'.
Proof.
  induction fuel as [| fuel IH]; intros elements h x h' H; [done |].
  cbn [while_loop] in H. unfold bind in H.
  destruct (ev condition ctx h) as [inner h1 | |] eqn:Hcond; [| done | done].
  cbn [register] in H.
  destruct (should_return _); [run; steps |].
  destruct (rr_value inner) eqn:Hv; [done | ..];
    (destruct (negb _); [run; steps |];
     destruct (ev body ctx h1) as [inner' h2 | |] eqn:Hbody; [| done | done];
     cbn [register] in H;
     eapply after_body_keeps in H; [| intros; by eapply IH];
     steps).
Qed.

Lemma visit_each_keeps nodes ctx :
  forall collected h x h',
    visit_each ev nodes ctx collected h = Ret x h' ->
    keeps_other_tables (cell (symbol_table ctx)) h h'.
Proof.
  induction nodes as [| node nodes IH]; intros collected h x h' H;
    [cbn [visit_each] in H; run; steps |].
  cbn [visit_each] in H. unfold bind in H.
  destruct (ev node ctx h) as [inner h1 | |] eqn:Hnode; [| done | done].
  cbn [register] in H. destruct (should_return _); [run; steps |].
  apply IH in H. steps.
Qed.

Lemma visit_cases_keeps cases ctx :
  forall rr h x h',
    visit_cases ev cases ctx rr h = Ret x h' ->
    keeps_other_tables (cell (symbol_table ctx)) h h'.
Proof.
  induction cases as [| [[condition expr] null] cases IH];
    intros rr h x h' H; [cbn [visit_cases] in H; run; steps |].
  cbn [visit_cases] in H. unfold bind in H.
  destruct (ev condition ctx h) as [inner h1 | |] eqn:Hcond; [| done | done].
  cbn [register] in H. destruct (should_return _); [run; steps |].
  destruct (rr_value inner) eqn:Hv; [done | ..];
    (destruct (is_true _); [run; steps | apply IH in H; steps]).
Qed.

Lemma populate_args_keeps arg_names exec_context :
  forall args h h',
    populate_args arg_names args exec_context h = Ret tt h' ->
    keeps_other_tables (cell (symbol_table exec_context)) h h'.
Proof.
  induction arg_names as [| a arg_names IH]; intros [| v args] h h' H;
    try (cbn in H; run; by steps).
  cbn [populate_args] in H. unfold bind in H.
  destruct (set _ _ _ h) as [[] h0 | |] eqn:Hset; [| done | done].
  apply IH in H. steps.
Qed.

(** A call leaves every existing table as it is: the body writes to the
    environment of the activation, which is new. *)
Lemma execute_keeps self args h r h' :
  execute ev self args h = Ret r h' ->
  forall own, keeps_other_tables own h h'.
Proof.
  unfold execute. intros H own.
  destruct self as [| | | | name body arg_names auto pos defining];
    [done | run; steps ..|].
  unfold bind in H.
  destruct (generate_new_context _ h) as [exec_context h1 | |] eqn:Hgen;
    [| done | done].
  assert (Hnew : cell (symbol_table exec_context) = next_cell h
                 /\ next_cell h1 = S (next_cell h)
                 /\ forall c, c <> next_cell h ->
                      tables h1 !! c = tables h !! c).
  { unfold generate_new_context in Hgen.
    destruct defining as [defining |]; [| done].
    unfold bind, new_SymbolTable, ret in Hgen. injection Hgen as <- <-.
    cbn. repeat split. intros c Hc. by rewrite lookup_insert_ne. }
  destruct Hnew as (Hcell & Hnext & Hold).
  assert (Hrest : keeps_other_tables (next_cell h) h1 h').
  { rewrite <- Hcell.
    destruct (check_and_populate_args _ _ _ _ h1) as [checked h2 | |]
      eqn:Hcheck; [| done | done].
    assert (keeps_other_tables (cell (symbol_table exec_context)) h1 h2).
    { clear H. unfold check_and_populate_args in Hcheck.
      destruct (_ <? _)%nat;
        [unfold ret in Hcheck; simplify_eq; apply keeps_refl |].
      destruct (_ <? _)%nat;
        [unfold ret in Hcheck; simplify_eq; apply keeps_refl |].
      unfold bind in Hcheck.
      destruct (populate_args _ _ _ h1) as [[] hp | |] eqn:Hp;
        [| done | done].
      apply populate_args_keeps in Hp. unfold ret in Hcheck. by simplify_eq. }
    cbn [register] in H. destruct (should_return _); [run; steps |].
    unfold bind in H.
    destruct (ev body exec_context h2) as [inner h3 | |] eqn:Hbody;
      [| done | done].
    cbn [register] in H. run; steps. }
  destruct Hrest as [Hn Hk]. split; [lia |].
  intros c Hc _. rewrite Hk by lia. apply Hold. lia.
Qed.

End Isolation.

Lemma visit_keeps `{VS : ValueSystem} fuel :
  forall node ctx h r h',
    visit fuel node ctx h = Ret r h' ->
    keeps_other_tables (cell (symbol_table ctx)) h h'.
Proof.
  induction fuel as [| fuel IH]; intros node ctx h r h' H; [done |].
  destruct node; cbn [visit] in H.
  - unfold visit_numbernode in H. run. apply keeps_refl.
  - unfold visit_stringnode in H. run. apply keeps_refl.
  - unfold visit_listnode, bind in H.
    destruct (visit_each _ _ _ _ _) as [x h1 | |] eqn:Heach; [| done | done].
    apply (visit_each_keeps _ IH) in Heach. run; chain_steps.
  - unfold visit_binopnode, bind in H.
    destruct (visit fuel node1 ctx h) as [rl h1 | |] eqn:Hl; [| done | done].
    cbn [register] in H.
    destruct (visit fuel node2 ctx h1) as [rr h2 | |] eqn:Hr; [| done | done].
    apply IH in Hl, Hr. cbn [register] in H. unfold binop_dispatch in H.
    run; chain_steps.
  - unfold visit_unaryopnode, bind in H.
    destruct (visit fuel node ctx h) as [rr h1 | |] eqn:Hv; [| done | done].
    apply IH in Hv. cbn [register] in H. run; chain_steps.
  - unfold visit_varaccessnode in H. run; apply keeps_refl.
  - unfold visit_varassignnode, bind in H.
    destruct (visit fuel node ctx h) as [rr h1 | |] eqn:Hv; [| done | done].
    apply IH in Hv. cbn [register] in H.
    destruct (should_return _); [run; chain_steps |].
    destruct (set _ _ _ h1) as [[] h2 | |] eqn:Hset; [| done | done].
    apply set_keeps in Hset. run; chain_steps.
  - unfold visit_ifnode, bind in H.
    destruct (visit_cases _ _ _ _ _) as [x h1 | |] eqn:Hcases; [| done | done].
    apply (visit_cases_keeps _ IH) in Hcases.
    destruct x as [returned | rr]; [run; chain_steps |].
    destruct else_case as [[expr null] |]; [| run; chain_steps].
    unfold bind in H.
    destruct (visit fuel expr ctx h1) as [inner h2 | |] eqn:He; [| done | done].
    apply IH in He. cbn [register] in H. run; chain_steps.
  - unfold visit_fornode, bind in H.
    destruct (visit fuel node1 ctx h) as [r1 h1 | |] eqn:H1; [| done | done].
    apply IH in H1. cbn [register] in H.
    destruct (should_return _); [run; chain_steps |].
    destruct (visit fuel node2 ctx h1) as [r2 h2 | |] eqn:H2; [| done | done].
    apply IH in H2. cbn [register] in H.
    destruct (should_return _); [run; chain_steps |].
    destruct step_value_node as [step |].
    + unfold bind in H.
      destruct (visit fuel step ctx h2) as [r3 h3 | |] eqn:H3; [| done | done].
      apply IH in H3. cbn [register ret] in H.
      destruct (should_return _); [run; chain_steps |].
      destruct (for_iterations _ _ _ _ _ _ _ _ _) as [x h4 | |] eqn:Hloop;
        [| done | done].
      apply (for_iterations_keeps _ IH) in Hloop. run; chain_steps.
    + cbn [ret] in H.
      destruct (should_return _); [run; chain_steps |].
      destruct (for_iterations _ _ _ _ _ _ _ _ _) as [x h4 | |] eqn:Hloop;
        [| done | done].
      apply (for_iterations_keeps _ IH) in Hloop. run; chain_steps.
  - unfold visit_whilenode, bind in H.
    destruct (while_loop _ _ _ _ _ _ _) as [x h1 | |] eqn:Hloop; [| done | done].
    apply (while_loop_keeps _ IH) in Hloop. run; chain_steps.
  - unfold visit_funcdefnode, bind in H.
    destruct var_name_token as [name |].
    + destruct (set _ _ _ h) as [[] h1 | |] eqn:Hset; [| done | done].
      apply set_keeps in Hset. run; chain_steps.
    + run; apply keeps_refl.
  - unfold visit_callnode, bind in H.
    destruct (visit fuel node ctx h) as [rc h1 | |] eqn:Hc; [| done | done].
    apply IH in Hc. cbn [register] in H.
    destruct (should_return _); [run; chain_steps |].
    destruct (rr_value rc) eqn:Hcallee; [done | ..];
      (unfold bind in H;
       destruct (visit_each _ _ _ _ _) as [x h2 | |] eqn:Hargs;
       [| done | done];
       apply (visit_each_keeps _ IH) in Hargs;
       destruct x as [rr | args]; [run; chain_steps |];
       destruct (execute _ _ _ _) as [re h3 | |] eqn:Hexec; [| done | done];
       apply (execute_keeps _ IH) with (own := cell (symbol_table ctx))
         in Hexec;
       cbn [register] in H; run; chain_steps).
  - unfold visit_returnnode in H.
    destruct node_to_return as [node |]; [| run; apply keeps_refl].
    unfold bind in H.
    destruct (visit fuel node ctx h) as [rv h1 | |] eqn:Hv; [| done | done].
    apply IH in Hv. cbn [register] in H. run; chain_steps.
  - unfold visit_continuenode in H. run. apply keeps_refl.
  - unfold visit_breaknode in H. run. apply keeps_refl.
Qed.

(** X7: the evaluator writes to the environment of its context only.
    Whatever a node does, when its evaluation returns, no table is lost and
    every environment that existed before, other than the one of the
    context the node is evaluated in, has the dictionary it had; lookups
    that do not pass through that one environment answer as before. *)
Theorem evaluation_keeps_other_environments `{VS : ValueSystem} (fuel : nat)
    (node : Node) (context : Context) (h h' : Heap) (r : RuntimeResult) :
  visit fuel node context h = Ret r h' ->
  (next_cell h <= next_cell h')%nat
  /\ (forall c, (c < next_cell h)%nat -> c <> cell (symbol_table context) ->
                tables h' !! c = tables h !! c)
  /\ forall u name dflt,
       (forall s, s ∈ scope_chain u ->
                  (cell s < next_cell h)%nat
                  /\ cell s <> cell (symbol_table context)) ->
       get h' u name dflt = get h u name dflt.
Proof.
  intros Hrun. destruct (visit_keeps _ _ _ _ _ _ Hrun) as [Hnext Hkeep].
  split; [done |]. split; [done |].
  intros u name dflt Hu. apply get_ext. intros s Hs.
  destruct (Hu s Hs) as [Hlt Hne]. unfold symbols. by rewrite Hkeep.
Qed.

(** X8: a call writes to no environment that existed before it.  When
    [Function.execute] returns, every table of the store it started from,
    the caller's and the defining one included, has the dictionary it had:
    the parameters and every assignment of the body go to the environment
    of the activation. *)
Theorem call_keeps_every_environment `{VS : ValueSystem} (fuel : nat)
    (self : Value) (args : list Value) (h h' : Heap) (r : RuntimeResult) :
  Function_execute fuel self args h = Ret r h' ->
  (next_cell h <= next_cell h')%nat
  /\ (forall c, (c < next_cell h)%nat -> tables h' !! c = tables h !! c)
  /\ forall u name dflt,
       (forall s, s ∈ scope_chain u -> (cell s < next_cell h)%nat) ->
       get h' u name dflt = get h u name dflt.
Proof.
  intros Hrun.
  pose proof (execute_keeps _ (visit_keeps fuel) _ _ _ _ _ Hrun) as Hkeep.
  destruct (Hkeep (next_cell h)) as [Hnext Hold].
  assert (Hall : forall c, (c < next_cell h)%nat ->
                           tables h' !! c = tables h !! c).
  { intros c Hc. apply Hold; lia. }
  split; [done |]. split; [done |].
  intros u name dflt Hu. apply get_ext. intros s Hs.
  unfold symbols. by rewrite Hall by (by apply Hu).
Qed.

(** ** Lists, variables, positions, conditionals *)

Lemma visited_in_order_length ev ctx h nodes values h' :
  visited_in_order ev ctx h nodes values h' -> length values = length nodes.
Proof. induction 1; cbn; by f_equal. Qed.

Lemma visited_in_order_snoc ev ctx h nodes values h1 node r h2 :
  visited_in_order ev ctx h nodes values h1 ->
  ev node ctx h1 = Ret r h2 -> should_return r = false ->
  visited_in_order ev ctx h (nodes ++ [node])%list
                   (values ++ [rr_value r])%list h2.
Proof.
  induction 1 as [h | h n ns r0 h0 vs h1 Hn Hr0 Hrest IH]; intros Hnode Hr.
  - cbn. econstructor; [done | done | constructor].
  - cbn. econstructor; [done | done |]. by apply IH.
Qed.

Section EachInOrder.

Variable ev : Node -> Context -> M RuntimeResult.

(** The loop over element or argument nodes, from any point of its run. *)
Lemma visit_each_in_order ctx nodes :
  forall done_nodes collected h0 h x h',
    visited_in_order ev ctx h0 done_nodes collected h ->
    visit_each ev nodes ctx collected h = Ret x h' ->
    match x with
    | LoopDone values =>
        visited_in_order ev ctx h0 (done_nodes ++ nodes)%list values h'
    | LoopReturn rr =>
        exists before node after values h1 inner,
          (done_nodes ++ nodes = before ++ node :: after)%list
          /\ visited_in_order ev ctx h0 before values h1
          /\ ev node ctx h1 = Ret inner h'
          /\ should_return inner = true
          /\ rr = snd (register new_RuntimeResult inner)
    end.
Proof.
  induction nodes as [| node nodes IH];
    intros done_nodes collected h0 h x h' Hdone H.
  - cbn in H. injection H as <- <-. by rewrite app_nil_r.
  - cbn [visit_each] in H. unfold bind in H.
    destruct (ev node ctx h) as [inner h1 | |] eqn:Hnode; [| done | done].
    cbn [register] in H. rewrite should_return_signals in H.
    destruct (should_return inner) eqn:Hsig.
    + injection H as <- <-.
      by exists done_nodes, node, nodes, collected, h, inner.
    + pose proof (visited_in_order_snoc _ _ _ _ _ _ _ _ _ Hdone Hnode Hsig)
        as Hmore.
      specialize (IH _ _ _ _ _ _ Hmore H).
      by rewrite <- app_assoc in IH.
Qed.

End EachInOrder.

(** X10: a list node evaluates its elements from left to right.  When the
    node returns a normal result, every element evaluated normally, each on
    the store left by the one before, and the result is the list of their
    values, one per element, with the span of the node and the context.
    When it returns an error or a signal, that is the result of the first
    element that did not evaluate normally; the elements after it were not
    evaluated. *)
Theorem list_node_visits_elements_in_order `{VS : ValueSystem} (fuel : nat)
    (sp : Span) (element_nodes : list Node) (context : Context)
    (h h' : Heap) (r : RuntimeResult) :
  visit (S fuel) (ListNode sp element_nodes) context h = Ret r h' ->
  if should_return r
  then exists before node after values h1,
         element_nodes = (before ++ node :: after)%list
         /\ visited_in_order (visit fuel) context h before values h1
         /\ visit fuel node context h1 = Ret r h'
  else exists values,
         visited_in_order (visit fuel) context h element_nodes values h'
         /\ length values = length element_nodes
         /\ r = success (VList values (Some sp) (Some context)).
Proof.
  cbn [visit]. unfold visit_listnode, bind. intros H.
  destruct (visit_each _ _ _ _ _) as [x h1 | |] eqn:Heach; [| done | done].
  apply (visit_each_in_order _ _ _ [] [] h) in Heach; [| constructor].
  destruct x as [rr | values]; unfold ret in H; injection H as <- <-.
  - destruct Heach as (before & node & after & values & h2 & inner
                       & Hsplit & Hbefore & Hnode & Hsig & ->).
    pose proof (visit_disciplined _ _ _ _ _ _ Hnode) as Hd.
    unfold disciplined in Hd. rewrite Hsig in Hd.
    rewrite register_signal by done. rewrite Hsig.
    by exists before, node, after, values, h2.
  - cbn. exists values. split; [done |]. split; [| done].
    by eapply visited_in_order_length.
Qed.

(** X11: what an assignment binds, an access reads.  When [VAR x = e]
    returns a normal result, the environment of the context binds [x] to
    the value of the result, and an access to [x] in that context then
    succeeds with that value, carrying the span of the access and the
    context.  When it returns an error or a signal, that is the result of
    [e] and the store is the one [e] left: nothing is bound. *)
Theorem assignment_then_access `{VS : ValueSystem} (fuel fuel' : nat)
    (sp sp' : Span) (var_name : string) (value_node : Node)
    (context : Context) (h h' : Heap) (r : RuntimeResult) :
  visit (S fuel) (VarAssignNode sp var_name value_node) context h = Ret r h' ->
  if should_return r
  then visit fuel value_node context h = Ret r h'
  else symbols h' (symbol_table context) !! var_name = Some (rr_value r)
       /\ visit (S fuel') (VarAccessNode sp' var_name) context h'
          = Ret (success (set_context (set_position (rr_value r) sp') context))
                h'.
Proof.
  cbn [visit]. unfold visit_varassignnode, bind. intros H.
  destruct (visit fuel value_node context h) as [inner h1 | |] eqn:Hv;
    [| done | done].
  pose proof (visit_disciplined _ _ _ _ _ _ Hv) as Hd.
  unfold disciplined in Hd.
  cbn [register] in H. rewrite should_return_signals in H.
  destruct (should_return inner) eqn:Hsig.
  - unfold ret in H. injection H as <- <-.
    rewrite should_return_signals, Hsig.
    change (Ret inner h1 = Ret (snd (register new_RuntimeResult inner)) h1).
    by rewrite register_signal.
  - destruct (symbols_set_same (symbol_table context) var_name
                (rr_value inner) h1) as (h2 & Hset & Hsym).
    rewrite Hset in H. unfold ret in H. injection H as <- <-. cbn.
    assert (Hbound : symbols h2 (symbol_table context) !! var_name
                     = Some (rr_value inner))
      by (rewrite Hsym; apply lookup_insert_eq).
    split; [done |].
    unfold visit_varaccessnode.
    rewrite (get_local _ _ _ _ _ Hbound Hd).
    by destruct (rr_value inner).
Qed.

Lemma value_pos_set_position v sp :
  is_none v = false -> value_pos (set_position v sp) = Some sp.
Proof. by destruct v. Qed.

Lemma value_pos_set_context v ctx :
  value_pos (set_context v ctx) = value_pos v.
Proof. by destruct v. Qed.

(** X12: positions.  For a literal, a list, a binary or unary operation, a
    variable access, a function definition and a call, the value of a
    normal result carries the span of the node itself, whatever span the
    value had where it came from. *)
Theorem normal_result_carries_node_span `{VS : ValueSystem} (fuel : nat)
    (node : Node) (sp : Span) (context : Context) (h h' : Heap)
    (r : RuntimeResult) :
  own_span node = Some sp ->
  visit fuel node context h = Ret r h' ->
  should_return r = false ->
  value_pos (rr_value r) = Some sp.
Proof.
  intros Hspan Hrun Hnormal.
  pose proof (visit_disciplined _ _ _ _ _ _ Hrun) as Hd.
  unfold disciplined in Hd. rewrite Hnormal in Hd.
  destruct fuel as [| fuel]; [done |].
  destruct node; cbn in Hspan; simplify_eq;
    [| | | rewrite visit_binopnode_steps in Hrun | ..]; cbn [visit] in Hrun.
  - unfold visit_numbernode, ret in Hrun. by simplify_eq.
  - unfold visit_stringnode, ret in Hrun. by simplify_eq.
  - unfold visit_listnode, bind in Hrun.
    destruct (visit_each _ _ _ _ _) as [[rr | els] h1 | |] eqn:Heach;
      [| | done | done]; unfold ret in Hrun; simplify_eq; [| done].
    apply visit_each_return in Heach as [Hsig _]. congruence.
  - destruct (visit fuel node1 context h) as [rl h1 | |]; [| done | done].
    destruct (visit fuel node2 context h1) as [rr h2 | |]; [| done | done].
    unfold binop_dispatch in Hrun. rewrite should_return_register in Hrun.
    destruct (should_return rr) eqn:Hsig.
    { unfold ret in Hrun. simplify_eq.
      all: rewrite should_return_register in Hnormal; congruence. }
    destruct (rr_value rl); [done | ..];
      (destruct (binary_operation _ _ _) as [result | error];
       [destruct result; [done | ..]; unfold ret in Hrun; by simplify_eq
       | unfold ret in Hrun; by simplify_eq]).
  - unfold visit_unaryopnode, bind in Hrun.
    destruct (visit fuel node context h) as [rr h1 | |]; [| done | done].
    cbn [register] in Hrun. rewrite should_return_signals in Hrun.
    destruct (should_return rr) eqn:Hsig.
    { unfold ret in Hrun. simplify_eq.
      all: rewrite should_return_signals in Hnormal; congruence. }
    destruct (rr_value rr) eqn:Hv; [done | ..];
      (match type of Hrun with
       | context [match ?o with OpOk _ => _ | OpError _ => _ end] =>
           destruct o as [result | error]
       end;
       [destruct result; [done | ..]; unfold ret in Hrun; by simplify_eq
       | unfold ret in Hrun; by simplify_eq]).
  - unfold visit_varaccessnode in Hrun.
    destruct (get h _ _ PyNone) eqn:Hget; by simplify_eq.
  - unfold visit_funcdefnode, bind, set, ret in Hrun.
    destruct var_name_token; by simplify_eq.
  - unfold visit_callnode, bind in Hrun.
    destruct (visit fuel node context h) as [rc h1 | |]; [| done | done].
    cbn [register] in Hrun. rewrite should_return_signals in Hrun.
    destruct (should_return rc) eqn:Hsig.
    { unfold ret in Hrun. simplify_eq.
      all: rewrite should_return_signals in Hnormal; congruence. }
    destruct (rr_value rc) eqn:Hcallee; [done | ..];
      (unfold bind in Hrun;
       destruct (visit_each _ _ _ _ _) as [[rr | args] h2 | |] eqn:Hargs;
       [| | done | done];
       [unfold ret in Hrun; simplify_eq;
        apply visit_each_return in Hargs as [Hs _]; congruence |];
       destruct (execute _ _ _ _) as [re h3 | |]; [| done | done];
       cbn [register] in Hrun; rewrite should_return_signals in Hrun;
       destruct (should_return re) eqn:Hsig';
       [unfold ret in Hrun; simplify_eq;
        try (rewrite should_return_signals in Hnormal; congruence) |];
       destruct (rr_value re); [done | ..];
       unfold ret in Hrun; by simplify_eq).
Qed.

(** The cases whose condition is not true are passed over: the loop goes on
    with the cases after them, on the store their conditions left. *)
Lemma visit_cases_pass `{VS : ValueSystem} fuel ctx before rest :
  forall rr h h1,
    conditions_fail (visit fuel) ctx h before h1 ->
    rr_value rr = PyNone ->
    exists rr',
      rr_value rr' = PyNone
      /\ visit_cases (visit fuel) (before ++ rest) ctx rr h
         = visit_cases (visit fuel) rest ctx rr' h1.
Proof.
  intros rr h h1 Hfail. revert rr.
  induction Hfail as [h | h c e n cases r h0 h1 Hc Hn Hfalse Hrest IH];
    intros rr Hrr.
  - by exists rr.
  - pose proof (visit_disciplined _ _ _ _ _ _ Hc) as Hd.
    unfold disciplined in Hd. rewrite Hn in Hd.
    destruct (IH (snd (register rr r))) as (rr' & Hrr' & Heq); [done |].
    exists rr'. split; [done |]. rewrite <- Heq.
    cbn [app visit_cases]. unfold bind. rewrite Hc. cbn [register snd].
    rewrite should_return_signals, Hn.
    destruct (rr_value r); [done | ..]; by rewrite Hfalse.
Qed.

Lemma branch_registered rr inner null :
  rr_value rr = PyNone -> disciplined inner ->
  (let '(expr_value, runtime_result) := register rr inner in
   if should_return runtime_result then runtime_result
   else success (if null : bool then Number 0 else expr_value))
  = branch_result inner null.
Proof.
  intros Hrr Hd. cbn [register]. rewrite should_return_signals.
  unfold branch_result, disciplined in *.
  destruct (should_return inner); [| done].
  destruct inner, rr. cbn in *. by subst.
Qed.

(** X13: an if-node takes the first case whose condition is true.  When the
    conditions of the cases before it evaluate to values that are not true,
    and the condition of a case evaluates to a true value, the node returns
    what the expression of that case returns ([Number(0)] in place of its
    value when the case is marked to return null); the expressions of the
    cases before it, the cases after it and the else-case are not
    evaluated. *)
Theorem if_node_takes_first_true_case `{VS : ValueSystem} (fuel : nat)
    (sp : Span) (before after : list (Node * Node * bool))
    (condition expr : Node) (null : bool) (else_case : option (Node * bool))
    (context : Context) (h h1 h2 h3 : Heap) (rc re : RuntimeResult) :
  conditions_fail (visit fuel) context h before h1 ->
  visit fuel condition context h1 = Ret rc h2 ->
  should_return rc = false ->
  is_true (rr_value rc) = true ->
  visit fuel expr context h2 = Ret re h3 ->
  visit (S fuel)
        (IfNode sp (before ++ (condition, expr, null) :: after)%list else_case)
        context h
  = Ret (branch_result re null) h3.
Proof.
  intros Hfail Hc Hn Htrue He.
  cbn [visit]. unfold visit_ifnode, bind.
  destruct (visit_cases_pass fuel context before
              ((condition, expr, null) :: after) new_RuntimeResult h h1
              Hfail eq_refl) as (rr' & Hrr' & ->).
  pose proof (visit_disciplined _ _ _ _ _ _ Hc) as Hdc.
  unfold disciplined in Hdc. rewrite Hn in Hdc.
  pose proof (visit_disciplined _ _ _ _ _ _ He) as Hde.
  cbn [visit_cases]. unfold bind. rewrite Hc. cbn [register].
  rewrite should_return_signals, Hn.
  destruct (rr_value rc) eqn:Hv; [done | ..];
    (rewrite Htrue; unfold bind; rewrite He;
     rewrite <- (branch_registered
                   (mkResult (rr_value rr') (rr_error rc)
                      (func_return_value rc) (loop_should_continue rc)
                      (loop_should_break rc)) re null Hrr' Hde);
     cbn [register]; rewrite !should_return_signals;
     by destruct (should_return re)).
Qed.

(** X14: an if-node without a true condition.  When the conditions of all
    the cases evaluate to values that are not true, the node returns what
    the else-expression returns on the store the conditions left
    ([Number(0)] in place of its value when the else-case is marked to
    return null), and [Number(0)] on that store when there is no else-case;
    no expression of a case is evaluated. *)
Theorem if_node_without_true_case `{VS : ValueSystem} (fuel : nat)
    (sp : Span) (cases : list (Node * Node * bool))
    (else_case : option (Node * bool)) (context : Context) (h h1 : Heap) :
  conditions_fail (visit fuel) context h cases h1 ->
  visit (S fuel) (IfNode sp cases else_case) context h
  = match else_case with
    | None => Ret (success (Number 0)) h1
    | Some (expr, null) =>
        match visit fuel expr context h1 with
        | Ret re h2 => Ret (branch_result re null) h2
        | Raise e => Raise e
        | OutOfFuel => OutOfFuel
        end
    end.
Proof.
  intros Hfail. cbn [visit]. unfold visit_ifnode, bind.
  destruct (visit_cases_pass fuel context cases [] new_RuntimeResult h h1
              Hfail eq_refl) as (rr' & Hrr' & Heq).
  rewrite app_nil_r in Heq. rewrite Heq. cbn [visit_cases ret].
  destruct else_case as [[expr null] |]; [| done].
  unfold bind.
  destruct (visit fuel expr context h1) as [re h2 | |] eqn:He; [| done | done].
  pose proof (visit_disciplined _ _ _ _ _ _ He) as Hde.
  rewrite <- (branch_registered rr' re null Hrr' Hde).
  cbn [register]. rewrite !should_return_signals.
    by destruct (should_return re).
Qed.

(** ** Loops *)

Section LoopEdges.

Context `{VS : ValueSystem}.
Variable ev : Node -> Context -> M RuntimeResult.

(** X15: a for-loop on [int]s with step 0 whose start is below its end
    never ends.  When the body returns without error, return value and break
    each time the loop evaluates it, the loop returns for no amount of
    fuel: the index stays at the start, below the end, for ever.  The body
    may read the loop variable and any other variable: [Inv] is any property
    kept by the stores the loop takes the body to. *)
Theorem for_loop_with_step_zero_never_returns (Inv : Heap -> Prop)
    (var_name : string) (body_node : Node) (context : Context) (s e : Z)
    (ps pe pk : option Span) (cs ce ck : option Context) (h : Heap) :
  s < e ->
  Inv h ->
  (forall h0 h0',
      Inv h0 ->
      set (symbol_table context) var_name (Number s) h0 = Ret tt h0' ->
      exists r h1,
        ev body_node context h0' = Ret r h1
        /\ rr_error r = None /\ func_return_value r = PyNone
        /\ loop_should_break r = false /\ Inv h1) ->
  forall fuel,
    for_iterations ev fuel var_name body_node context
                   (VNumber s ps cs) (VNumber e pe ce) (VNumber 0 pk ck) h
    = OutOfFuel.
Proof.
  intros Hlt Hinv Hbody fuel. cbn [for_iterations attr_value].
  generalize (@nil Value). revert h Hinv.
  induction fuel as [| fuel IH]; intros h Hinv elements; [done |].
  cbn [for_loop]. rewrite for_condition_int. cbn [Z.leb Z.compare].
  destruct (Z.ltb_spec s e); [| lia].
  unfold bind.
  destruct (symbols_set_same (symbol_table context) var_name (Number s) h)
    as (h0 & Hset & _).
  rewrite Hset. cbn [py_add].
  destruct (Hbody h h0 Hinv Hset) as (r & h1 & Hr & Herr & Hret & Hbreak & Hinv1).
  rewrite Hr. cbn [register]. unfold after_body, should_return.
  cbn [rr_error func_return_value loop_should_continue loop_should_break].
  rewrite Herr, Hret, Hbreak, Z.add_0_r. cbn [is_none negb orb].
  destruct (loop_should_continue r); cbn [andb orb negb]; by apply IH.
Qed.

(** X16: break and continue do not leave a for-loop.  What the loop of
    [visit_fornode] hands back from inside, for the method to return,
    carries an error or a return value, never the break or the continue
    flag. *)
Theorem for_loop_keeps_break_and_continue_inside (fuel : nat)
    (var_name : string) (body_node : Node) (context : Context)
    (start_value end_value step_value : Value) (h h' : Heap)
    (r : RuntimeResult) :
  for_iterations ev fuel var_name body_node context
                 start_value end_value step_value h
  = Ret (LoopReturn r) h' ->
  loop_should_break r = false
  /\ loop_should_continue r = false
  /\ (is_Some (rr_error r) \/ is_none (func_return_value r) = false).
Proof.
  assert (Hloop : forall condition step index elements h0,
    for_loop ev fuel condition step var_name body_node context index
             elements h0 = Ret (LoopReturn r) h' ->
    loop_should_break r = false
    /\ loop_should_continue r = false
    /\ (is_Some (rr_error r) \/ is_none (func_return_value r) = false)).
  { intros condition step. induction fuel as [| n IH];
      intros index elements h0 H; [done |].
    cbn [for_loop] in H. destruct (condition index);
      [| unfold ret in H; simplify_eq].
    unfold bind in H. cbn [set] in H.
    destruct (py_add index step) as [next |]; [| done].
    destruct (ev body_node context _) as [inner h1 | |]; [| done | done].
    cbn [register] in H. unfold after_body in H.
    destruct (should_return _ && _ && _) eqn:Hgo.
    - unfold ret in H. simplify_eq.
      apply andb_prop in Hgo as [Hgo Hbreak].
      apply andb_prop in Hgo as [Hsig Hcont].
      apply negb_true_iff in Hbreak, Hcont. cbn in Hbreak, Hcont.
      split; [done |]. split; [done |].
      unfold should_return in Hsig. cbn in Hsig. rewrite Hbreak, Hcont in Hsig.
      rewrite !orb_false_r in Hsig. apply orb_prop in Hsig as [Hsig | Hsig].
      + left. cbn. by destruct (rr_error inner).
      + right. cbn. by apply negb_true_iff.
    - repeat case_match; unfold ret in H; simplify_eq; by eapply IH. }
  unfold for_iterations. intros H.
  repeat case_match; unfold raise, ret in H; simplify_eq. by eapply Hloop.
Qed.

(** X17: a for-loop on [int]s collects at most as many values as it has
    iterations.  With [int] start, end and step, the step not zero,
    whatever the body does (break, continue or a normal value in any
    order), the list the loop ends with is no longer than
    [max(0, ceil((e - s) / k))]. *)
Theorem for_loop_collects_at_most_count (fuel : nat) (var_name : string)
    (body_node : Node) (context : Context) (s e k : Z)
    (ps pe pk : option Span) (cs ce ck : option Context) (h h' : Heap)
    (elements : list Value) :
  k <> 0 ->
  for_iterations ev fuel var_name body_node context
                 (VNumber s ps cs) (VNumber e pe ce) (VNumber k pk ck) h
  = Ret (LoopDone elements) h' ->
  (length elements <= iteration_count s e k)%nat.
Proof.
  intros Hk. cbn [for_iterations attr_value].
  assert (Hloop : forall (index : Z) collected h0,
    for_loop ev fuel (for_condition k e) k var_name body_node context index
             collected h0 = Ret (LoopDone elements) h' ->
    (length elements <= length collected + iteration_count index e k)%nat).
  { induction fuel as [| n IH]; intros index collected h0 H; [done |].
    cbn [for_loop] in H. destruct (for_condition k e index) eqn:Hcond.
    - rewrite (iteration_count_step index e k Hk Hcond).
      unfold bind in H. cbn [set py_add] in H.
      destruct (ev body_node context _) as [inner h1 | |]; [| done | done].
      cbn [register] in H. unfold after_body in H.
      repeat case_match; unfold ret in H; simplify_eq.
      + apply IH in H. lia.
      + lia.
      + apply IH in H. rewrite length_app in H. cbn in H. lia.
    - unfold ret in H. simplify_eq. lia. }
  intros H. apply Hloop in H. cbn in H. lia.
Qed.

End LoopEdges.

(** ** Tracebacks that cannot be written *)

(** X18: when the traceback cannot be written.  For an error with a
    context, [generate_traceback] raises [AttributeError] exactly when the
    error has no start position or some context of the chain that has a
    parent has no entry position; in every other case it returns the
    text. *)
Theorem traceback_needs_positions (self : ActiveRuntimeError)
    (context : Context) :
  err_context self = Some context ->
  (generate_traceback self = inl AttributeError <->
   start_pos self = None
   \/ exists c, c ∈ context_chain context
                /\ is_Some (parent_context c) /\ parent_entry_pos c = None)
  /\ (generate_traceback self <> inl AttributeError ->
      exists text, generate_traceback self = inr text).
Proof.
  intros Hctx.
  assert (Htrace : generate_traceback self =
    match frame_list context (start_pos self) with
    | Some frames => inr (traceback_header +:+ traceback_lines (rev frames))
    | None => inl AttributeError
    end).
  { unfold generate_traceback. rewrite Hctx, traceback_loop_frames.
    destruct (frame_list context (start_pos self)); [| done].
    by rewrite append_empty_r. }
  rewrite Htrace. split.
  - rewrite <- frame_list_missing.
    by destruct (frame_list context (start_pos self)).
  - destruct (frame_list context (start_pos self)); [by eexists | done].
Qed.

(** ** Every result is in one of the five states *)

Lemma one_state_success v : is_none v = false -> one_state (success v).
Proof. intros Hv. left. by exists v. Qed.

Lemma registered_one_state inner :
  one_state inner -> should_return inner = true ->
  mkResult PyNone (rr_error inner) (func_return_value inner)
           (loop_should_continue inner) (loop_should_break inner) = inner.
Proof.
  by intros [(v & Hv & ->) | [(e & ->) | [(v & Hv & ->) | [-> | ->]]]].
Qed.

Lemma one_state_normal r :
  one_state r -> should_return r = false ->
  is_none (rr_value r) = false /\ r = success (rr_value r).
Proof.
  intros [(v & Hv & ->) | [(e & ->) | [(v & Hv & ->) | [-> | ->]]]];
    try done.
  unfold should_return. cbn. by rewrite Hv.
Qed.


Section ResultStates.

Context `{VS : ValueSystem}.
Variable ev : Node -> Context -> M RuntimeResult.
Hypothesis ev_one_state :
  forall node ctx h r h', ev node ctx h = Ret r h' -> one_state r.

(** Registering the result of a child that carries a signal gives that
    result back. *)
Lemma ev_registered node ctx h inner h' :
  ev node ctx h = Ret inner h' -> should_return inner = true ->
  signal_state
    (mkResult PyNone (rr_error inner) (func_return_value inner)
              (loop_should_continue inner) (loop_should_break inner)).
Proof.
  intros Hev Hsig. apply ev_one_state in Hev.
  rewrite registered_one_state by done. by split.
Qed.

Lemma ev_value node ctx h inner h' :
  ev node ctx h = Ret inner h' -> should_return inner = false ->
  is_none (rr_value inner) = false.
Proof.
  intros Hev Hn. apply ev_one_state in Hev.
  by apply one_state_normal in Hev as [? _].
Qed.

Lemma after_body_state cv rr elements again h r h' :
  (should_return rr = true -> signal_state rr) ->
  (forall els h0, again els h0 = Ret (LoopReturn r) h' -> signal_state r) ->
  after_body cv rr elements again h = Ret (LoopReturn r) h' ->
  signal_state r.
Proof.
  intros Hrr Hagain. unfold after_body. intros H.
  destruct (should_return rr) eqn:Hsig; cbn [andb] in H;
    repeat case_match; unfold ret in H; simplify_eq; eauto.
Qed.

Lemma for_loop_state fuel condition step var body ctx :
  forall index elements h r h',
    for_loop ev fuel condition step var body ctx index elements h
    = Ret (LoopReturn r) h' -> signal_state r.
Proof.
  induction fuel as [| fuel IH]; intros index elements h r h' H; [done |].
  cbn [for_loop] in H. destruct (condition index);
    [| unfold ret in H; simplify_eq].
  unfold bind in H. cbn [set] in H.
  destruct (py_add index step) as [next |]; [| done].
  destruct (ev body ctx _) as [inner h1 | |] eqn:Hbody; [| done | done].
  cbn [register] in H.
  eapply after_body_state in H; [done | | intros els h0; apply IH].
  rewrite should_return_signals. by eapply ev_registered.
Qed.

Lemma for_iterations_state fuel var body ctx start_value end_value step_value
    h r h' :
  for_iterations ev fuel var body ctx start_value end_value step_value h
  = Ret (LoopReturn r) h' -> signal_state r.
Proof.
  unfold for_iterations. intros H.
  repeat case_match; unfold raise, ret in H; simplify_eq.
  by eapply for_loop_state.
Qed.

Lemma while_loop_state fuel condition body ctx :
  forall elements h r h',
    while_loop ev fuel condition body ctx elements h = Ret (LoopReturn r) h' ->
    signal_state r.
Proof.
  induction fuel as [| fuel IH]; intros elements h r h' H; [done |].
  cbn [while_loop] in H. unfold bind in H.
  destruct (ev condition ctx h) as [inner h1 | |] eqn:Hcond; [| done | done].
  cbn [register] in H. rewrite should_return_signals in H.
  destruct (should_return inner) eqn:Hsig.
  { unfold ret in H. simplify_eq. by eapply ev_registered. }
  destruct (rr_value inner) eqn:Hv; [done | ..];
    (destruct (negb _); [unfold ret in H; simplify_eq |];
     destruct (ev body ctx h1) as [inner' h2 | |] eqn:Hbody; [| done | done];
     cbn [register] in H;
     eapply after_body_state in H; [done | | intros els h0; apply IH];
     rewrite should_return_signals; by eapply ev_registered).
Qed.

Lemma visit_each_state nodes ctx :
  forall collected h r h',
    visit_each ev nodes ctx collected h = Ret (LoopReturn r) h' ->
    signal_state r.
Proof.
  induction nodes as [| node nodes IH]; intros collected h r h' H;
    [cbn [visit_each] in H; unfold ret in H; simplify_eq |].
  cbn [visit_each] in H. unfold bind in H.
  destruct (ev node ctx h) as [inner h1 | |] eqn:Hnode; [| done | done].
  cbn [register] in H. rewrite should_return_signals in H.
  destruct (should_return inner) eqn:Hsig.
  { unfold ret in H. simplify_eq. by eapply ev_registered. }
  by eapply IH.
Qed.

Lemma visit_cases_state cases ctx :
  forall rr h,
    rr_value rr = PyNone ->
    match visit_cases ev cases ctx rr h with
    | Ret (inl r) h' => one_state r
    | Ret (inr r) h' => rr_value r = PyNone
    | _ => True
    end.
Proof.
  induction cases as [| [[condition expr] null] cases IH];
    intros rr h Hrr; [done |].
  cbn [visit_cases]. unfold bind.
  destruct (ev condition ctx h) as [inner h1 | |] eqn:Hcond; [| done | done].
  cbn [register]. rewrite should_return_signals.
  destruct (should_return inner) eqn:Hsig.
  { cbn [ret]. rewrite Hrr. by eapply ev_registered. }
  destruct (rr_value inner) eqn:Hv; [done | ..];
    (destruct (is_true _); [| by apply IH];
     unfold bind;
     destruct (ev expr ctx h1) as [inner' h2 | |] eqn:Hexpr; [| done | done];
     cbn [register]; rewrite should_return_signals;
     destruct (should_return inner') eqn:Hsig'; cbn [ret];
     [rewrite Hrr; by eapply ev_registered |];
     apply one_state_success; destruct null; [done |];
     by eapply ev_value).
Qed.

Lemma check_and_populate_args_state self arg_names args exec_context h r h' :
  check_and_populate_args self arg_names args exec_context h = Ret r h' ->
  should_return r = true -> exists e, r = failure e.
Proof.
  unfold check_and_populate_args. intros H Hsig.
  repeat case_match; unfold ret, bind in H; repeat case_match;
    simplify_eq; by eexists.
Qed.

Lemma execute_state self args h r h' :
  execute ev self args h = Ret r h' -> one_state r.
Proof.
  unfold execute. intros H.
  destruct self as [| | | | name body arg_names auto pos defining];
    [done | unfold ret in H; simplify_eq; right; left; by eexists ..|].
  unfold bind in H.
  destruct (generate_new_context _ h) as [exec_context h1 | |];
    [| done | done].
  destruct (check_and_populate_args _ _ _ _ h1) as [checked h2 | |]
    eqn:Hcheck; [| done | done].
  cbn [register] in H. rewrite should_return_signals in H.
  destruct (should_return checked) eqn:Hchecked.
  { unfold ret in H. simplify_eq.
    destruct (check_and_populate_args_state _ _ _ _ _ _ _ Hcheck Hchecked)
      as [e ->].
    right. left. by exists e. }
  unfold bind in H.
  destruct (ev body exec_context h2) as [inner h3 | |] eqn:Hbody;
    [| done | done].
  cbn [register] in H. rewrite should_return_signals in H.
  cbn [func_return_value] in H.
  pose proof (ev_one_state _ _ _ _ _ Hbody) as Hinner.
  destruct (should_return inner && is_none (func_return_value inner))
    eqn:Hgo.
  { apply andb_prop in Hgo as [Hgo _]. unfold ret in H. simplify_eq.
    by eapply ev_registered. }
  unfold ret in H. simplify_eq. apply one_state_success. unfold py_or.
  destruct Hinner as [(v & Hv & ->) | [(e & ->) | [(v & Hv & ->) | [-> | ->]]]];
    cbn in *; try done; destruct auto; cbn; by rewrite ?Hv.
Qed.

End ResultStates.

Lemma visit_one_state `{VS : ValueSystem} fuel :
  forall node ctx h r h', visit fuel node ctx h = Ret r h' -> one_state r.
Proof.
  induction fuel as [| fuel IH]; intros node ctx h r h' H; [done |].
  pose proof (fun node ctx h inner h' H1 H2 =>
                proj2 (ev_registered (visit fuel) IH node ctx h inner h' H1 H2))
    as Hreg.
  pose proof (ev_value (visit fuel) IH) as Hvalue.
  assert (Hfail : forall e, one_state (failure e))
    by (intros e; right; left; by exists e).
  destruct node; [| | | rewrite visit_binopnode_steps in H | ..];
    cbn [visit] in H.
  - unfold visit_numbernode, ret in H. simplify_eq.
    by apply one_state_success.
  - unfold visit_stringnode, ret in H. simplify_eq.
    by apply one_state_success.
  - unfold visit_listnode, bind in H.
    destruct (visit_each _ _ _ _ _) as [[rr | els] h1 | |] eqn:Heach;
      [| | done | done]; unfold ret in H; simplify_eq.
    + by apply (visit_each_state _ IH) in Heach as [_ ?].
    + by apply one_state_success.
  - destruct (visit fuel node1 ctx h) as [rl h1 | |] eqn:Hl; [| done | done].
    destruct (visit fuel node2 ctx h1) as [rr h2 | |] eqn:Hr; [| done | done].
    cbn [register snd] in H. unfold binop_dispatch in H.
    rewrite should_return_signals in H.
    destruct (should_return rr) eqn:Hsig.
    { unfold ret in H. simplify_eq. by eapply Hreg. }
    repeat case_match; unfold ret, raise in H; simplify_eq; try done;
      apply one_state_success; by rewrite ?set_position_is_none.
  - unfold visit_unaryopnode, bind in H.
    destruct (visit fuel node ctx h) as [rr h1 | |] eqn:Hv; [| done | done].
    cbn [register] in H. rewrite should_return_signals in H.
    destruct (should_return rr) eqn:Hsig.
    { unfold ret in H. simplify_eq. by eapply Hreg. }
    repeat case_match; unfold ret, raise in H; simplify_eq; try done;
      apply one_state_success; by rewrite ?set_position_is_none.
  - unfold visit_varaccessnode in H.
    repeat case_match; simplify_eq; apply one_state_success;
      by rewrite ?set_context_is_none, ?set_position_is_none.
  - unfold visit_varassignnode, bind in H.
    destruct (visit fuel node ctx h) as [rr h1 | |] eqn:Hv; [| done | done].
    cbn [register] in H. rewrite should_return_signals in H.
    destruct (should_return rr) eqn:Hsig.
    { unfold ret in H. simplify_eq. by eapply Hreg. }
    cbn [set] in H. unfold ret in H. simplify_eq.
    apply one_state_success. by eapply Hvalue.
  - unfold visit_ifnode, bind in H.
    pose proof (visit_cases_state (visit fuel) IH cases ctx
                  new_RuntimeResult h eq_refl) as Hcases.
    destruct (visit_cases _ _ _ _ _) as [[returned | rr] h1 | |];
      [| | done | done].
    + unfold ret in H. by simplify_eq.
    + destruct else_case as [[expr null] |];
        [| unfold ret in H; simplify_eq; by apply one_state_success].
      unfold bind in H.
      destruct (visit fuel expr ctx h1) as [inner h2 | |] eqn:He;
        [| done | done].
      cbn [register] in H. rewrite should_return_signals in H.
      destruct (should_return inner) eqn:Hsig.
      { unfold ret in H. simplify_eq. rewrite Hcases. by eapply Hreg. }
      unfold ret in H. simplify_eq. apply one_state_success.
      destruct null; [done | by eapply Hvalue].
  - unfold visit_fornode, bind in H.
    destruct (visit fuel node1 ctx h) as [r1 h1 | |] eqn:H1; [| done | done].
    cbn [register] in H. rewrite should_return_signals in H.
    destruct (should_return r1) eqn:Hsig1.
    { unfold ret in H. simplify_eq. by eapply Hreg. }
    destruct (visit fuel node2 ctx h1) as [r2 h2 | |] eqn:H2; [| done | done].
    cbn [register] in H. rewrite should_return_signals in H.
    destruct (should_return r2) eqn:Hsig2.
    { unfold ret in H. simplify_eq. by eapply Hreg. }
    destruct step_value_node as [step |].
    + unfold bind in H.
      destruct (visit fuel step ctx h2) as [r3 h3 | |] eqn:H3; [| done | done].
      cbn [register ret] in H. rewrite should_return_signals in H.
      destruct (should_return r3) eqn:Hsig3.
      { unfold ret in H. simplify_eq. by eapply Hreg. }
      destruct (for_iterations _ _ _ _ _ _ _ _ _) as [[rr | els] h4 | |]
        eqn:Hiter; [| | done | done]; unfold ret in H; simplify_eq.
      * by apply (for_iterations_state _ IH) in Hiter as [_ ?].
      * apply one_state_success. unfold loop_value.
        by destruct should_return_null.
    + cbn [ret] in H. rewrite should_return_signals, Hsig2 in H.
      destruct (for_iterations _ _ _ _ _ _ _ _ _) as [[rr | els] h4 | |]
        eqn:Hiter; [| | done | done]; unfold ret in H; simplify_eq.
      * by apply (for_iterations_state _ IH) in Hiter as [_ ?].
      * apply one_state_success. unfold loop_value.
        by destruct should_return_null.
  - unfold visit_whilenode, bind in H.
    destruct (while_loop _ _ _ _ _ _ _) as [[rr | els] h1 | |] eqn:Hloop;
      [| | done | done]; unfold ret in H; simplify_eq.
    + by apply (while_loop_state _ IH) in Hloop as [_ ?].
    + apply one_state_success. unfold loop_value.
      by destruct should_return_null.
  - unfold visit_funcdefnode, bind, set, ret in H.
    destruct var_name_token; simplify_eq; by apply one_state_success.
  - unfold visit_callnode, bind in H.
    destruct (visit fuel node ctx h) as [rc h1 | |] eqn:Hc; [| done | done].
    cbn [register] in H. rewrite should_return_signals in H.
    destruct (should_return rc) eqn:Hsig.
    { unfold ret in H. simplify_eq. by eapply Hreg. }
    destruct (rr_value rc) eqn:Hcallee; [done | ..];
      (unfold bind in H;
       destruct (visit_each _ _ _ _ _) as [[rr | args] h2 | |] eqn:Hargs;
       [unfold ret in H; simplify_eq;
        by apply (visit_each_state _ IH) in Hargs as [_ ?]
       | | done | done];
       destruct (execute _ _ _ _) as [re h3 | |] eqn:Hexec; [| done | done];
       apply (execute_state _ IH) in Hexec;
       cbn [register] in H; rewrite should_return_signals in H;
       destruct (should_return re) eqn:Hsig';
       [unfold ret in H; simplify_eq;
        by rewrite registered_one_state |];
       apply one_state_normal in Hexec as [Hsome _]; [| done];
       destruct (rr_value re); [done | ..];
       unfold ret in H; simplify_eq; by apply one_state_success).
  - unfold visit_returnnode in H.
    destruct node_to_return as [node |];
      [| unfold ret in H; simplify_eq; right; right; left;
         by exists (Number 0)].
    unfold bind in H.
    destruct (visit fuel node ctx h) as [rv h1 | |] eqn:Hv; [| done | done].
    cbn [register] in H. rewrite should_return_signals in H.
    destruct (should_return rv) eqn:Hsig.
    { unfold ret in H. simplify_eq. by eapply Hreg. }
    unfold ret in H. simplify_eq. right; right; left.
    eexists. split; [| done]. by eapply Hvalue.
  - unfold visit_continuenode, ret in H. simplify_eq. by do 3 right; left.
  - unfold visit_breaknode, ret in H. simplify_eq. by do 4 right.
Qed.

(** X9: every result of the evaluator is in exactly one of five states.  A
    result that [visit] returns is a value that is not [None] and nothing
    else, or an error and nothing else, or a return value that is not
    [None] and nothing else, or the continue flag alone, or the break flag
    alone. *)
Theorem evaluator_results_have_one_state `{VS : ValueSystem} (fuel : nat)
    (node : Node) (context : Context) (h h' : Heap) (r : RuntimeResult) :
  visit fuel node context h = Ret r h' ->
  (exists v, is_none v = false /\ r = success v)
  \/ (exists e, r = failure e)
  \/ (exists v, is_none v = false /\ r = success_return v)
  \/ r = success_continue
  \/ r = success_break.
Proof. apply visit_one_state. Qed.

(** X19: an error in the body is the result of the call.  When the body of
    a function returns an error, [Function.execute] returns that very
    result, with the store the body left, whatever the auto-return flag. *)
Theorem call_returns_error_of_body `{VS : ValueSystem} (fuel : nat)
    (name : option string) (body_node : Node) (arg_names : list string)
    (should_auto_return : bool) (pos : option Span)
    (defining : option Context) (args : list Value) (h h1 h2 h3 : Heap)
    (exec_context : Context) (checked inner : RuntimeResult)
    (error : ActiveRuntimeError) :
  let self := VFunction name body_node arg_names should_auto_return pos
                        defining in
  generate_new_context self h = Ret exec_context h1 ->
  check_and_populate_args self arg_names args exec_context h1
  = Ret checked h2 ->
  should_return checked = false ->
  visit fuel body_node exec_context h2 = Ret inner h3 ->
  rr_error inner = Some error ->
  inner = failure error
  /\ Function_execute fuel self args h = Ret (failure error) h3.
Proof.
  intros self Hgen Hcheck Hok Hbody Herr.
  assert (Hinner : inner = failure error).
  { destruct (visit_one_state _ _ _ _ _ _ Hbody)
      as [(v & Hv & ->) | [(e & ->) | [(v & Hv & ->) | [-> | ->]]]];
      cbn in Herr; by simplify_eq. }
  split; [done |]. subst inner.
  unfold Function_execute, execute, self, bind. fold self.
  rewrite Hgen, Hcheck. cbn [register].
  by rewrite should_return_signals, Hok, Hbody.
Qed.

Section WhileEdges.

Context `{VS : ValueSystem}.
Variable ev : Node -> Context -> M RuntimeResult.

(** X20: break and continue of the body do not leave a while-loop.  When
    the condition itself never returns the break or the continue flag, what
    the loop of [visit_whilenode] hands back from inside, for the method to
    return, carries neither flag. *)
Theorem while_loop_keeps_break_and_continue_inside (fuel : nat)
    (condition body_node : Node) (context : Context)
    (elements : list Value) (h h' : Heap) (r : RuntimeResult) :
  (forall h0 rc h1,
      ev condition context h0 = Ret rc h1 ->
      loop_should_break rc = false /\ loop_should_continue rc = false) ->
  while_loop ev fuel condition body_node context elements h
  = Ret (LoopReturn r) h' ->
  loop_should_break r = false /\ loop_should_continue r = false.
Proof.
  intros Hcond. revert elements h.
  induction fuel as [| n IH]; intros elements h H; [done |].
  cbn [while_loop] in H. unfold bind in H.
  destruct (ev condition context h) as [rc h1 | |] eqn:Hc; [| done | done].
  apply Hcond in Hc as [Hb Hk]. cbn [register] in H.
  destruct (should_return _); [unfold ret in H; by simplify_eq |].
  destruct (rr_value rc); [done | ..];
    (destruct (negb _); [unfold ret in H; simplify_eq |];
     destruct (ev body_node context h1) as [inner h2 | |]; [| done | done];
     cbn [register] in H; unfold after_body in H;
     destruct (should_return _ && _ && _) eqn:Hgo;
     [unfold ret in H; simplify_eq;
      apply andb_prop in Hgo as [Hgo Hbreak];
      apply andb_prop in Hgo as [_ Hcont];
      apply negb_true_iff in Hbreak, Hcont; by split
     | repeat case_match; unfold ret in H; simplify_eq; by eapply IH]).
Qed.

End WhileEdges.

(** ** The further properties on concrete runs *)

Lemma set_then_get_witness :
  exists h1 h2,
    set global_table "x" (Number 5) global_heap = Ret tt h1
    /\ get h1 global_table "x" PyNone = Number 5
    /\ set global_table "x" (Number 6) h1 = Ret tt h2
    /\ get h2 global_table "x" PyNone = Number 6
    /\ symbols h2 global_table
       = <["x" := Number 6]> (symbols global_heap global_table).
Proof.
  exact (set_then_get global_heap global_table "x" (Number 5) (Number 6)
           PyNone eq_refl eq_refl).
Defined.

Lemma set_keeps_other_names_witness :
  exists h',
    set global_table "x" (Number 5) global_heap = Ret tt h'
    /\ get h' global_table "TRUE" PyNone
       = get global_heap global_table "TRUE" PyNone.
Proof.
  eexists. split; [reflexivity |].
  apply (set_keeps_other_names global_heap _ global_table global_table
           "x" "TRUE" (Number 5) PyNone eq_refl).
  discriminate.
Defined.

Lemma set_then_remove_witness :
  exists h1 h2,
    set global_table "x" (Number 5) global_heap = Ret tt h1
    /\ remove global_table "x" h1 = Ret tt h2
    /\ (forall u, symbols h2 u = symbols global_heap u)
    /\ forall u name' dflt,
         get h2 u name' dflt = get global_heap u name' dflt.
Proof.
  apply (set_then_remove global_heap global_table "x" (Number 5)).
  vm_compute. reflexivity.
Defined.

(** [x] is 9 in the activation and 5 at top level: once removed from the
    activation, it reads 5 there. *)
Lemma remove_uncovers_parent_witness :
  exists h',
    remove activation_table "x" heap_with_local_x = Ret tt h'
    /\ get h' activation_table "x" PyNone
       = get heap_with_local_x global_table "x" PyNone.
Proof.
  apply (remove_uncovers_parent heap_with_local_x 1 (Some global_table) "x"
           (Number 9)).
  - vm_compute. reflexivity.
  - intros q [= <-] s Hs. apply list_elem_of_singleton in Hs. subst s.
    discriminate.
Defined.

Lemma get_finds_nearest_binding_witness :
  get heap_with_local_x activation_table "x" PyNone = Number 9.
Proof.
  apply (get_finds_nearest_binding heap_with_local_x activation_table "x"
           (Number 9) eq_refl).
  exists [], activation_table, [global_table].
  split; [reflexivity |]. split; [vm_compute; reflexivity |].
  intros u Hu. by apply elem_of_nil in Hu.
Defined.

(** [x] is bound at top level only; with a default, the activation does not
    see it. *)
Lemma get_with_default_stays_local_witness :
  get (activation_heap heap_with_x) global_table "x" PyNone = Number 5
  /\ get (activation_heap heap_with_x) activation_table "x" (Number 7)
     = Number 7.
Proof.
  split; [vm_compute; reflexivity |].
  apply (get_with_default_stays_local (activation_heap heap_with_x)
           activation_table "x" (Number 7) eq_refl).
  vm_compute. reflexivity.
Defined.

(** [VAR x = 1] inside the activation of [f] leaves the global [x] at 5. *)
Lemma evaluation_keeps_other_environments_witness :
  exists r h',
    visit (VS := int_value_system) 2 assign_x activation_context
          (activation_heap heap_with_x) = Ret r h'
    /\ get h' global_table "x" PyNone = Number 5.
Proof.
  eexists _, _. split; [reflexivity |].
  destruct (evaluation_keeps_other_environments (VS := int_value_system)
              2 assign_x activation_context (activation_heap heap_with_x)
              _ _ eq_refl) as (_ & _ & Hget).
  transitivity (get (activation_heap heap_with_x) global_table "x" PyNone);
    [apply Hget | vm_compute; reflexivity].
  intros s Hs. apply list_elem_of_singleton in Hs. subst s.
  split; [cbn; lia | discriminate].
Defined.

(** A call of [FUN f() -> VAR x = 1] leaves the global [x] at 5. *)
Lemma call_keeps_every_environment_witness :
  exists r h',
    Function_execute (VS := int_value_system) 2
                     (function_value assign_x true) [] heap_with_x
    = Ret r h'
    /\ get h' global_table "x" PyNone = Number 5.
Proof.
  eexists _, _. split; [vm_compute; reflexivity |].
  destruct (call_keeps_every_environment (VS := int_value_system)
              2 (function_value assign_x true) [] heap_with_x _ _ eq_refl)
    as (_ & _ & Hget).
  transitivity (get heap_with_x global_table "x" PyNone);
    [apply Hget | vm_compute; reflexivity].
  intros s Hs. apply list_elem_of_singleton in Hs. subst s. cbn. lia.
Defined.

Lemma evaluator_results_have_one_state_witness :
  (exists v, is_none v = false /\ success_break = success v)
  \/ (exists e, success_break = failure e)
  \/ (exists v, is_none v = false /\ success_break = success_return v)
  \/ success_break = success_continue
  \/ success_break = success_break.
Proof.
  exact (evaluator_results_have_one_state (VS := int_value_system) 1
           (BreakNode shell_span) global_context global_heap global_heap
           success_break eq_refl).
Defined.

Lemma list_node_visits_elements_in_order_witness :
  exists values,
    visited_in_order (visit (VS := int_value_system) 1) global_context
                     global_heap [number 1; number 2] values global_heap
    /\ length values = 2%nat
    /\ success (VList [literal 1; literal 2] (Some shell_span)
                      (Some global_context))
       = success (VList values (Some shell_span) (Some global_context)).
Proof.
  exact (list_node_visits_elements_in_order (VS := int_value_system) 1
           shell_span [number 1; number 2] global_context global_heap
           global_heap
           (success (VList [literal 1; literal 2] (Some shell_span)
                           (Some global_context)))
           eq_refl).
Defined.

Lemma assignment_then_access_witness :
  exists h',
    visit (VS := int_value_system) 2 assign_x global_context global_heap
    = Ret (success (literal 1)) h'
    /\ symbols h' global_table !! "x" = Some (literal 1)
    /\ visit (VS := int_value_system) 1 (VarAccessNode shell_span "x")
             global_context h'
       = Ret (success (literal 1)) h'.
Proof.
  eexists. split; [reflexivity |].
  exact (assignment_then_access (VS := int_value_system) 1 0 shell_span
           shell_span "x" (number 1) global_context global_heap _
           (success (literal 1)) eq_refl).
Defined.

Lemma normal_result_carries_node_span_witness :
  value_pos (literal 1) = Some shell_span.
Proof.
  exact (normal_result_carries_node_span (VS := int_value_system) 1
           (number 1) shell_span global_context global_heap global_heap
           (success (literal 1)) eq_refl eq_refl eq_refl).
Defined.

(** [IF 0 THEN 1 ELIF 1 THEN 2 ELIF 1 THEN 4 ELSE 3] is 2. *)
Lemma if_node_takes_first_true_case_witness :
  visit (VS := int_value_system) 2
        (IfNode shell_span [false_case; true_case; late_case] else_three)
        global_context global_heap
  = Ret (success (literal 2)) global_heap.
Proof.
  apply (if_node_takes_first_true_case (VS := int_value_system) 1 shell_span
           [false_case] [late_case] (number 1) (number 2) false else_three
           global_context global_heap global_heap global_heap global_heap
           (success (literal 1)) (success (literal 2))).
  - apply (fail_cons (VS := int_value_system) _ _ _ (number 0) (number 1)
             false [] (success (literal 0)) global_heap global_heap);
      [reflexivity | reflexivity | reflexivity | constructor].
  - reflexivity.
  - reflexivity.
  - reflexivity.
  - reflexivity.
Defined.

(** [IF 0 THEN 1 ELSE 3] is 3. *)
Lemma if_node_without_true_case_witness :
  visit (VS := int_value_system) 2
        (IfNode shell_span [false_case] else_three) global_context
        global_heap
  = Ret (success (literal 3)) global_heap.
Proof.
  apply (if_node_without_true_case (VS := int_value_system) 1 shell_span
           [false_case] else_three global_context global_heap global_heap).
  apply (fail_cons (VS := int_value_system) _ _ _ (number 0) (number 1)
           false [] (success (literal 0)) global_heap global_heap);
    [reflexivity | reflexivity | reflexivity | constructor].
Defined.

(** [FOR i = 0 TO 3 STEP 0 THEN i * i] does not return with 50 units of
    fuel. *)
Lemma for_loop_with_step_zero_never_returns_witness :
  for_iterations (visit (VS := int_value_system) 2) 50 "i" square_of_i
                 global_context (Number 0) (Number 3) (Number 0) global_heap
  = OutOfFuel.
Proof.
  apply (for_loop_with_step_zero_never_returns
           (visit (VS := int_value_system) 2) (fun _ => True) "i" square_of_i
           global_context 0 3 None None None None None None global_heap).
  - lia.
  - exact I.
  - intros h0 h0' _ Hset. eexists _, _.
    split; [exact (square_of_i_returns 0 h0 h0' Hset) |].
    repeat split; reflexivity.
Defined.

(** [FOR i = 0 TO 3 THEN RETURN]: the loop hands back the return. *)
Lemma for_loop_keeps_break_and_continue_inside_witness :
  exists h',
    for_iterations (visit (VS := int_value_system) 1) 4 "i"
                   (ReturnNode shell_span None) global_context
                   (Number 0) (Number 3) (Number 1) global_heap
    = Ret (LoopReturn (success_return (Number 0))) h'
    /\ loop_should_break (success_return (Number 0)) = false
    /\ loop_should_continue (success_return (Number 0)) = false.
Proof.
  eexists. split; [reflexivity |].
  destruct (for_loop_keeps_break_and_continue_inside
              (visit (VS := int_value_system) 1) 4 "i"
              (ReturnNode shell_span None) global_context
              (Number 0) (Number 3) (Number 1) global_heap _
              (success_return (Number 0)) eq_refl) as (Hb & Hc & _).
  by split.
Defined.

(** [FOR i = 0 TO 3 THEN BREAK] collects nothing, and 0 is at most 3. *)
Lemma for_loop_collects_at_most_count_witness :
  exists h',
    for_iterations (visit (VS := int_value_system) 1) 4 "i"
                   (BreakNode shell_span) global_context
                   (Number 0) (Number 3) (Number 1) global_heap
    = Ret (LoopDone []) h'
    /\ (length (@nil Value) <= iteration_count 0 3 1)%nat.
Proof.
  eexists. split; [reflexivity |].
  eapply (for_loop_collects_at_most_count
           (visit (VS := int_value_system) 1) 4 "i" (BreakNode shell_span)
           global_context 0 3 1 None None None None None None global_heap _
           []); [lia | reflexivity].
Defined.

Lemma traceback_needs_positions_witness :
  generate_traceback failure_without_position = inl AttributeError.
Proof.
  destruct (traceback_needs_positions failure_without_position
              global_context eq_refl) as [[_ Hfails] _].
  apply Hfails. by left.
Defined.

(** [WHILE 1 THEN RETURN]: the loop hands back the return. *)
Lemma while_loop_keeps_break_and_continue_inside_witness :
  while_loop (VS := int_value_system)
             (visit (VS := int_value_system) 1) 3 (number 1)
             (ReturnNode shell_span None) global_context [] global_heap
  = Ret (LoopReturn (success_return (Number 0))) global_heap
  /\ loop_should_break (success_return (Number 0)) = false
  /\ loop_should_continue (success_return (Number 0)) = false.
Proof.
  split; [reflexivity |].
  apply (while_loop_keeps_break_and_continue_inside
           (VS := int_value_system) (visit (VS := int_value_system) 1) 3 (number 1)
           (ReturnNode shell_span None) global_context [] global_heap
           global_heap (success_return (Number 0))).
  - intros h0 rc h1 [= <- <-]. by split.
  - reflexivity.
Defined.

(** [FUN f() -> 1 / 0], called: the division error is the result. *)
Lemma call_returns_error_of_body_witness :
  exists error,
    Function_execute (VS := int_value_system) 2
      (function_value (BinOpNode shell_span (number 1) TP_DIV (number 0)) true)
      [] global_heap
    = Ret (failure error) (activation_heap global_heap).
Proof.
  eexists.
  apply (call_returns_error_of_body (VS := int_value_system) 2 (Some "f")
           (BinOpNode shell_span (number 1) TP_DIV (number 0)) [] true
           (Some shell_span) (Some global_context) [] global_heap
           (activation_heap global_heap) (activation_heap global_heap)
           (activation_heap global_heap) activation_context (success PyNone)
           _ _ eq_refl eq_refl eq_refl eq_refl eq_refl).
Defined.
